(** * shootinggame.py: the frame update of the arcade shooter

    A shallow embedding of [src/shootinggame.py] (the classes [Bullet],
    [Player], [Enemy], [Pool], [Star], [Game] and the loop of [main]) and
    the properties of its per-frame update.

    Conventions of the embedding.
    - Python [int]s are [Z].  The coordinates of a [pygame.Rect] are C
      [int]s; the model keeps them in [Z] without a bound.  With the [dt]
      that [main] passes ([clock.tick] counts milliseconds in a C [int])
      no product [speed * dt] leaves the 32-bit range.
    - Python [float]s ([dt], the timers, the speed of an enemy, the
      coordinates of a star) are exact rationals [Q].  Rounding of the
      binary floating point is not modelled; no statement below depends on
      the last bits of a product or a difference.
    - The module [random] is an oracle: each call receives its raw draw as
      an argument ([N] for [randint], a rational whose fractional part is
      the value of [random.random()] for [uniform]).
    - An object mutated in place is a record rebuilt by a setter; a
      reference into [self.pool] is the index of the slot.
    - A Python exception is [None]. *)

From Stdlib Require Import ZArith QArith Qround Bool Lia Lqa Sorted.
From stdpp Require Import base option list.

Local Open Scope Z_scope.

(** ** Config *)

Definition WIDTH : Z := 900.
Definition HEIGHT : Z := 600.
Definition FPS : Z := 120.
Definition PLAYER_SPEED : Z := 450.
Definition BULLET_SPEED : Z := 900.
Definition ENEMY_SPEED_MIN : Q := 80%Q.
Definition ENEMY_SPEED_MAX : Q := 200%Q.
Definition FIRE_RATE : Q := (16 # 100)%Q.
Definition MAX_BULLETS : nat := 40.
Definition ENEMY_SPAWN_TIME : Q := (8 # 10)%Q.

(** ** Python built-ins used by the game *)

(** [int(q)] of a float: truncation toward zero. *)
Definition py_int (q : Q) : Z := Z.quot (Qnum q) (Z.pos (Qden q)).

(** [a < b] on floats. *)
Definition Qlt_bool (a b : Q) : bool := negb (Qle_bool b a).

(** [max(0, v)]: the first argument is kept unless the second is larger. *)
Definition py_max0 (v : Q) : Q := if Qlt_bool 0%Q v then v else 0%Q.

(** [clamp(x, a, b)] is [max(a, min(b, x))]. *)
Definition clamp (x a b : Z) : Z := Z.max a (Z.min b x).

(** [random.randint(a, b)] for [a <= b], from the raw draw [r].  (On an
    empty range Python raises [ValueError]; the one call whose bounds are
    not literals is guarded in [Enemy.spawn].) *)
Definition randint (a b : Z) (r : N) : Z := a + Z.of_N r mod (b - a + 1).

(** [random.random()]: the fractional part of the raw draw, in [0, 1). *)
Definition random_unit (r : Q) : Q := (r - inject_Z (Qfloor r))%Q.

(** [random.uniform(a, b)] is [a + (b - a) * random()]. *)
Definition uniform (a b : Q) (r : Q) : Q := (a + (b - a) * random_unit r)%Q.

(** ** pygame.Rect *)

Module Rect.
Record t := mk { x : Z; y : Z; w : Z; h : Z }.

Definition top (r : t) : Z := y r.
Definition bottom (r : t) : Z := y r + h r.
Definition right (r : t) : Z := x r + w r.
Definition width (r : t) : Z := w r.
Definition centerx (r : t) : Z := x r + Z.quot (w r) 2.

Definition set_x (v : Z) (r : t) : t := mk v (y r) (w r) (h r).
Definition set_y (v : Z) (r : t) : t := mk (x r) v (w r) (h r).

(** [r.center = (cx, cy)] *)
Definition set_center (cx cy : Z) (r : t) : t :=
  mk (cx - Z.quot (w r) 2) (cy - Z.quot (h r) 2) (w r) (h r).

(** [Surface((w, h)).get_rect()] *)
Definition of_size (w0 h0 : Z) : t := mk 0 0 w0 h0.

(** [a.colliderect(b)] as pygame 2 computes it: rectangles of zero
    width or height collide with nothing, the others overlap when each
    one starts strictly before the other ends, on both axes. *)
Definition colliderect (a b : t) : bool :=
  if (w a =? 0) || (h a =? 0) || (w b =? 0) || (h b =? 0) then false
  else (Z.min (x a) (x a + w a) <? Z.max (x b) (x b + w b))
    && (Z.min (y a) (y a + h a) <? Z.max (y b) (y b + h b))
    && (Z.max (x a) (x a + w a) >? Z.min (x b) (x b + w b))
    && (Z.max (y a) (y a + h a) >? Z.min (y b) (y b + h b)).
End Rect.

(** The attribute [active] that [Pool] and the loops of [Game] read and
    clear on a sprite. *)
Class Sprite (A : Type) := {
  is_active : A -> bool;
  deactivate : A -> A
}.

(** ** Bullet *)

Module Bullet.
Record t := mk { rect : Rect.t; speed : Z; active : bool }.

(** [Bullet()] *)
Definition init : t := mk (Rect.of_size 6 14) BULLET_SPEED false.

Definition set_active (v : bool) (self : t) : t := mk (rect self) (speed self) v.

Definition activate (cx cy : Z) (self : t) : t :=
  mk (Rect.set_center cx cy (rect self)) (speed self) true.

Definition update (dt : Q) (self : t) : t :=
  if negb (active self) then self
  else
    let r := Rect.set_y (Rect.y (rect self) - py_int (inject_Z (speed self) * dt)) (rect self) in
    mk r (speed self) (if Rect.bottom r <? 0 then false else active self).
End Bullet.

#[export] Instance Bullet_Sprite : Sprite Bullet.t :=
  {| is_active := Bullet.active; deactivate := Bullet.set_active false |}.

(** ** Player *)

(** The keys [Player.update] and [Game.update] read from
    [pygame.key.get_pressed()]. *)
Record Keys := mkKeys {
  K_LEFT : bool; K_a : bool; K_RIGHT : bool; K_d : bool;
  K_SPACE : bool; K_UP : bool
}.

Module Player.
Record t := mk { size : Z; rect : Rect.t; speed : Z; shoot_timer : Q; lives : Z }.

(** [Player()]: a 40x40 rectangle centred at [(WIDTH//2, HEIGHT - 60)]. *)
Definition init : t :=
  mk 40 (Rect.set_center (WIDTH / 2) (HEIGHT - 60) (Rect.of_size 40 40))
     PLAYER_SPEED 0%Q 3.

Definition set_shoot_timer (v : Q) (self : t) : t :=
  mk (size self) (rect self) (speed self) v (lives self).
Definition set_lives (v : Z) (self : t) : t :=
  mk (size self) (rect self) (speed self) (shoot_timer self) v.

(** The signed sum of the left and right flags. *)
Definition vx (keys : Keys) : Z :=
  (if K_LEFT keys || K_a keys then -1 else 0)
  + (if K_RIGHT keys || K_d keys then 1 else 0).

Definition update (dt : Q) (keys : Keys) (self : t) : t :=
  let r := rect self in
  let x1 := Rect.x r + py_int (inject_Z (vx keys * speed self) * dt) in
  let x2 := clamp x1 0 (WIDTH - Rect.width r) in
  mk (size self) (Rect.set_x x2 r) (speed self)
     (py_max0 (shoot_timer self - dt)) (lives self).
End Player.

(** ** Enemy *)

Module Enemy.
Record t := mk { size : Z; rect : Rect.t; speed : Q; health : Z; active : bool }.

(** The draws of [Enemy()]: [randint(20, 44)] and [uniform(...)]. *)
Record InitDraw := mkInitDraw { i_size : N; i_speed : Q }.
(** The draws of [spawn]: two [randint]s and a [uniform]. *)
Record SpawnDraw := mkSpawnDraw { s_x : N; s_off : N; s_speed : Q }.

Definition init (d : InitDraw) : t :=
  let sz := randint 20 44 (i_size d) in
  mk sz (Rect.of_size sz sz) (uniform ENEMY_SPEED_MIN ENEMY_SPEED_MAX (i_speed d)) 1 false.

Definition set_active (v : bool) (self : t) : t :=
  mk (size self) (rect self) (speed self) (health self) v.

(** [spawn]: [randint(0, WIDTH - size)] raises [ValueError] when the
    range is empty. *)
Definition spawn (d : SpawnDraw) (self : t) : option t :=
  if WIDTH - size self <? 0 then None
  else
    let r1 := Rect.set_x (randint 0 (WIDTH - size self) (s_x d)) (rect self) in
    let r2 := Rect.set_y (- size self - randint 0 200 (s_off d)) r1 in
    Some (mk (size self) r2 (uniform ENEMY_SPEED_MIN ENEMY_SPEED_MAX (s_speed d)) 1 true).

Definition update (dt : Q) (self : t) : t :=
  if negb (active self) then self
  else
    let r := Rect.set_y (Rect.y (rect self) + py_int (speed self * dt)) (rect self) in
    mk (size self) r (speed self) (health self)
       (if Rect.top r >? HEIGHT then false else active self).
End Enemy.

#[export] Instance Enemy_Sprite : Sprite Enemy.t :=
  {| is_active := Enemy.active; deactivate := Enemy.set_active false |}.

(** ** Pool *)

Module Pool.
Section Generic.
Context {A : Type} `{Sprite A}.

(** [self.pool]; the deque [self.queue] built next to it is never
    read and is left out. *)
Record t := mk { pool : list A }.

(** [Pool(cls, size)] *)
Definition init (fresh : A) (size : nat) : t := mk (replicate size fresh).

(** The scan of [get]: the index of the first slot that is not
    active. *)
Fixpoint first_inactive (l : list A) : option nat :=
  match l with
  | [] => None
  | item :: rest =>
      if negb (is_active item) then Some O
      else S <$> first_inactive rest
  end.

(** [get]: the slot handed out and the pool after the call.  When the
    scan finds nothing, slot 0 is cleared and handed out;
    [self.pool[0]] raises [IndexError] on an empty pool. *)
Definition get (self : t) : option (nat * t) :=
  match first_inactive (pool self) with
  | Some i => Some (i, self)
  | None =>
      item ← pool self !! O;
      Some (O, mk (<[O := deactivate item]> (pool self)))
  end.

(** [active_list]: the slots whose item is active, in pool order. *)
Fixpoint active_from (i : nat) (l : list A) : list nat :=
  match l with
  | [] => []
  | p :: rest =>
      if is_active p then i :: active_from (S i) rest
      else active_from (S i) rest
  end.
Definition active_list (self : t) : list nat := active_from O (pool self).
End Generic.
Arguments t A : clear implicits.
End Pool.

(** ** Star *)

Module Star.
Record t := mk { x : Q; y : Q; speed : Q; size : Z; alpha : Z }.

(** The five draws of [reset]. *)
Record Draw := mkDraw { d_x : Q; d_y : Q; d_speed : Q; d_size : N; d_alpha : N }.

Definition reset (init : bool) (d : Draw) : t :=
  mk (uniform 0%Q (inject_Z WIDTH) (d_x d))
     (uniform 0%Q (if init then inject_Z HEIGHT else (-50)%Q) (d_y d))
     (uniform 10%Q 120%Q (d_speed d))
     (randint 1 3 (d_size d))
     (randint 80 255 (d_alpha d)).

(** [Star()] *)
Definition init (d : Draw) : t := reset true d.

Definition update (dt : Q) (d : Draw) (self : t) : t :=
  let y1 := (y self + speed self * dt)%Q in
  if Qlt_bool (inject_Z HEIGHT) y1 then reset false d
  else mk (x self) y1 (speed self) (size self) (alpha self).
End Star.

(** ** The display *)

(** The flags passed to [pygame.display.set_mode]. *)
Inductive DisplayFlags := NOFLAGS | FULLSCREEN.

(** The global [screen]: the calls of [set_mode] made so far, the latest
    first; its head is the mode the display is in. *)
Definition Screen := list DisplayFlags.

(** The module-level [screen = pygame.display.set_mode((WIDTH, HEIGHT), flags)]
    with [flags = 0]. *)
Definition screen_init : Screen := [NOFLAGS].

Definition set_mode (f : DisplayFlags) (scr : Screen) : Screen := f :: scr.
Definition display_mode (scr : Screen) : option DisplayFlags := head scr.

(** ** Game *)

Module Game.
Record t := mk {
  running : bool;
  fullscreen : bool;
  player : Player.t;
  bullets : Pool.t Bullet.t;
  enemies : list Enemy.t;
  enemy_timer : Q;
  score : Z;
  paused : bool;
  game_over : bool;
  stars : list Star.t
}.

(** The draws of [__init__]: one per enemy and one per star. *)
Record InitDraw := mkInitDraw {
  enemy_draw : nat -> Enemy.InitDraw;
  star_draw : nat -> Star.Draw
}.

Definition init (d : InitDraw) : t :=
  mk true false Player.init (Pool.init Bullet.init MAX_BULLETS)
     ((fun i => Enemy.init (enemy_draw d i)) <$> seq 0 24)
     0%Q 0 false false
     ((fun i => Star.init (star_draw d i)) <$> seq 0 80).

Definition set_fullscreen (v : bool) (g : t) : t :=
  mk (running g) v (player g) (bullets g) (enemies g) (enemy_timer g)
     (score g) (paused g) (game_over g) (stars g).
Definition set_player (v : Player.t) (g : t) : t :=
  mk (running g) (fullscreen g) v (bullets g) (enemies g) (enemy_timer g)
     (score g) (paused g) (game_over g) (stars g).
Definition set_bullets (v : Pool.t Bullet.t) (g : t) : t :=
  mk (running g) (fullscreen g) (player g) v (enemies g) (enemy_timer g)
     (score g) (paused g) (game_over g) (stars g).
Definition set_enemies (v : list Enemy.t) (g : t) : t :=
  mk (running g) (fullscreen g) (player g) (bullets g) v (enemy_timer g)
     (score g) (paused g) (game_over g) (stars g).
Definition set_enemy_timer (v : Q) (g : t) : t :=
  mk (running g) (fullscreen g) (player g) (bullets g) (enemies g) v
     (score g) (paused g) (game_over g) (stars g).
Definition set_score (v : Z) (g : t) : t :=
  mk (running g) (fullscreen g) (player g) (bullets g) (enemies g) (enemy_timer g)
     v (paused g) (game_over g) (stars g).
Definition set_paused (v : bool) (g : t) : t :=
  mk (running g) (fullscreen g) (player g) (bullets g) (enemies g) (enemy_timer g)
     (score g) v (game_over g) (stars g).
Definition set_game_over (v : bool) (g : t) : t :=
  mk (running g) (fullscreen g) (player g) (bullets g) (enemies g) (enemy_timer g)
     (score g) (paused g) v (stars g).
Definition set_stars (v : list Star.t) (g : t) : t :=
  mk (running g) (fullscreen g) (player g) (bullets g) (enemies g) (enemy_timer g)
     (score g) (paused g) (game_over g) v.

(** [toggle_fullscreen] flips the flag and sets the display mode from
    the new value of the flag. *)
Definition toggle_fullscreen (scr : Screen) (g : t) : Screen * t :=
  let g1 := set_fullscreen (negb (fullscreen g)) g in
  if fullscreen g1 then (set_mode FULLSCREEN scr, g1)
  else (set_mode NOFLAGS scr, g1).

(** The loop of [spawn_enemy]: the first enemy that is not active is
    spawned and the loop breaks; when there is none, nothing happens. *)
Fixpoint spawn_first (d : Enemy.SpawnDraw) (es : list Enemy.t) : option (list Enemy.t) :=
  match es with
  | [] => Some []
  | e :: rest =>
      if negb (Enemy.active e) then e1 ← Enemy.spawn d e; Some (e1 :: rest)
      else (cons e) <$> spawn_first d rest
  end.

Definition spawn_enemy (d : Enemy.SpawnDraw) (g : t) : option t :=
  es ← spawn_first d (enemies g); Some (set_enemies es g).

(** [shoot]: the slot handed out by the pool is activated at the
    player's horizontal centre, 6 pixels above its top. *)
Definition shoot (g : t) : option t :=
  '(i, bs) ← Pool.get (bullets g);
  b ← Pool.pool bs !! i;
  let r := Player.rect (player g) in
  Some (set_bullets
          (Pool.mk (<[i := Bullet.activate (Rect.centerx r) (Rect.top r - 6) b]> (Pool.pool bs)))
          g).

(** *** The steps of [update], in the order of the source *)

Definition fire_held (keys : Keys) : bool := K_SPACE keys || K_UP keys.

(** The test of the [if] that guards the shot. *)
Definition fires (keys : Keys) (g : t) : bool :=
  fire_held keys && Qle_bool (Player.shoot_timer (player g)) 0%Q.

Definition step_shoot (keys : Keys) (g : t) : option t :=
  if fires keys g
  then shoot (set_player (Player.set_shoot_timer FIRE_RATE (player g)) g)
  else Some g.

Definition step_bullets (dt : Q) (g : t) : t :=
  set_bullets (Pool.mk (Bullet.update dt <$> Pool.pool (bullets g))) g.

Definition step_enemies (dt : Q) (g : t) : t :=
  set_enemies (Enemy.update dt <$> enemies g) g.

Definition step_spawn (dt : Q) (d : Enemy.SpawnDraw) (g : t) : option t :=
  let g1 := set_enemy_timer (enemy_timer g + dt)%Q g in
  if Qle_bool ENEMY_SPAWN_TIME (enemy_timer g1)
  then spawn_enemy d (set_enemy_timer 0%Q g1)
  else Some g1.

(** The inner loop of the bullet-enemy collision for the bullet [b]:
    [Some] of the enemies after the hit when the [break] is taken, [None]
    when the loop runs to its end without a hit. *)
Fixpoint scan_enemies (b : Bullet.t) (es : list Enemy.t) : option (list Enemy.t) :=
  match es with
  | [] => None
  | e :: rest =>
      if Enemy.active e && Bullet.active b
         && Rect.colliderect (Enemy.rect e) (Bullet.rect b)
      then Some (Enemy.set_active false e :: rest)
      else (cons e) <$> scan_enemies b rest
  end.

(** One iteration of the outer loop, for the bullet in slot [i]. *)
Definition collide_bullet (g : t) (i : nat) : t :=
  match Pool.pool (bullets g) !! i with
  | None => g
  | Some b =>
      match scan_enemies b (enemies g) with
      | None => g
      | Some es =>
          set_score (score g + 10)
            (set_bullets (Pool.mk (<[i := Bullet.set_active false b]> (Pool.pool (bullets g))))
               (set_enemies es g))
      end
  end.

(** The outer loop runs over [active_list()], computed once before the
    first iteration. *)
Definition step_bullet_enemy (g : t) : t :=
  foldl collide_bullet g (Pool.active_list (bullets g)).

(** The enemy-player loop, threading [lives] and [game_over]. *)
Fixpoint hit_player (pr : Rect.t) (es : list Enemy.t) (lives : Z) (over : bool)
  : list Enemy.t * Z * bool :=
  match es with
  | [] => ([], lives, over)
  | e :: rest =>
      if Enemy.active e && Rect.colliderect (Enemy.rect e) pr
      then
        let lives1 := lives - 1 in
        let over1 := if lives1 <=? 0 then true else over in
        let '(rest1, l, o) := hit_player pr rest lives1 over1 in
        (Enemy.set_active false e :: rest1, l, o)
      else
        let '(rest1, l, o) := hit_player pr rest lives over in
        (e :: rest1, l, o)
  end.

Definition step_enemy_player (g : t) : t :=
  let '(es, l, o) :=
    hit_player (Player.rect (player g)) (enemies g) (Player.lives (player g)) (game_over g) in
  set_game_over o (set_player (Player.set_lives l (player g)) (set_enemies es g)).

Definition update (dt : Q) (keys : Keys) (d : Enemy.SpawnDraw) (g : t) : option t :=
  if paused g || game_over g then Some g
  else
    let g1 := set_player (Player.update dt keys (player g)) g in
    g2 ← step_shoot keys g1;
    g3 ← step_spawn dt d (step_enemies dt (step_bullets dt g2));
    Some (step_enemy_player (step_bullet_enemy g3)).

(** The only state [draw] changes: every star is advanced by [t]. *)
Definition draw (t0 : Q) (sd : nat -> Star.Draw) (g : t) : t :=
  set_stars (imap (fun i s => Star.update t0 (sd i) s) (stars g)) g.

(** [restart] runs [__init__] again on the same object: every attribute
    is assigned afresh. *)
Definition restart (d : InitDraw) (g : t) : t := init d.
End Game.

(** ** main *)

Inductive Key := K_p | K_f | K_r | K_ESCAPE | K_other.
Inductive Event := QUIT | KEYDOWN (k : Key) | OTHER.

Module Main.
(** The variables of [main] and the global [screen]. *)
Record t := mk { g : Game.t; screen : Screen; running : bool }.

(** What one iteration of the loop reads from outside. *)
Record Input := mkInput {
  in_dt : Q;
  in_keys : Keys;
  in_events : list Event;
  in_restart : Game.InitDraw;
  in_spawn : Enemy.SpawnDraw;
  in_stars : nat -> Star.Draw
}.

Definition start (d : Game.InitDraw) : t := mk (Game.init d) screen_init true.

Definition handle (rd : Game.InitDraw) (m : t) (ev : Event) : t :=
  match ev with
  | QUIT => mk (g m) (screen m) false
  | KEYDOWN K_p => mk (Game.set_paused (negb (Game.paused (g m))) (g m)) (screen m) (running m)
  | KEYDOWN K_f =>
      let '(scr, g1) := Game.toggle_fullscreen (screen m) (g m) in mk g1 scr (running m)
  | KEYDOWN K_r =>
      if Game.game_over (g m) then mk (Game.restart rd (g m)) (screen m) (running m)
      else m
  | KEYDOWN K_ESCAPE => mk (g m) (screen m) false
  | KEYDOWN K_other => m
  | OTHER => m
  end.

(** The body of the [while] loop: events, [update], [draw]. *)
Definition frame (i : Input) (m : t) : option t :=
  let m1 := foldl (handle (in_restart i)) m (in_events i) in
  g1 ← Game.update (in_dt i) (in_keys i) (in_spawn i) (g m1);
  Some (mk (Game.draw (in_dt i) (in_stars i) g1) (screen m1) (running m1)).

Fixpoint run (ins : list Input) (m : t) : option t :=
  match ins with
  | [] => Some m
  | i :: rest => if running m then m1 ← frame i m; run rest m1 else Some m
  end.

(** The states the program passes through at the top of the loop. *)
Inductive reachable : t -> Prop :=
| reach_start d : reachable (start d)
| reach_frame i m m1 :
    reachable m -> running m = true -> frame i m = Some m1 -> reachable m1.
End Main.

(** * Properties *)


(** ** Concrete inputs used by the examples *)

Definition no_keys : Keys := mkKeys false false false false false false.
Definition fire_keys : Keys := mkKeys false false false false true false.
Definition star_draw0 : Star.Draw := Star.mkDraw 0%Q 0%Q 0%Q 0%N 0%N.

(** Every enemy is created with size 40 ([20 + 20 mod 25]) and speed 80. *)
Definition draws0 : Game.InitDraw :=
  Game.mkInitDraw (fun _ => Enemy.mkInitDraw 20%N 0%Q) (fun _ => star_draw0).

(** A frame of one second without keys, with the events [evs] and the
    spawn draws [x], [off] and [u]. *)
Definition frame_with (evs : list Event) (x off : N) (u : Q) : Main.Input :=
  Main.mkInput 1%Q no_keys evs draws0 (Enemy.mkSpawnDraw x off u) (fun _ => star_draw0).
Definition quiet_frame : N -> N -> Q -> Main.Input := frame_with [].

(** Eight frames of one second.  The first four spawn an enemy each above
    the player's column ([x = 430]) with speeds 80, 100, 120 and 150; the
    four enemies enter the player's rectangle in the eighth frame.  The
    enemies spawned by the last four frames stay at [x = 0]. *)
Definition four_hits (evs : list Event) : list Main.Input :=
  [ frame_with evs 430 20 0%Q; quiet_frame 430 60 (1 # 6)%Q;
    quiet_frame 430 60 (1 # 3)%Q; quiet_frame 430 60 (7 # 12)%Q;
    quiet_frame 0 0 0%Q; quiet_frame 0 0 0%Q; quiet_frame 0 0 0%Q;
    quiet_frame 0 0 0%Q ].

(** The state after these frames, in a window and after key F was pressed
    in the first frame. *)
Definition after_four_hits : Main.t :=
  default (Main.start draws0) (Main.run (four_hits []) (Main.start draws0)).
Definition after_four_hits_fullscreen : Main.t :=
  default (Main.start draws0) (Main.run (four_hits [KEYDOWN K_f]) (Main.start draws0)).

(** A game with an inactive and an active bullet, and three enemies over
    the active bullet, the first of them inactive. *)
Definition hit_game : Game.t :=
  Game.set_enemies
    [ Enemy.mk 40 (Rect.mk 90 90 40 40) 100%Q 1 false;
      Enemy.mk 40 (Rect.mk 90 90 40 40) 100%Q 1 true;
      Enemy.mk 40 (Rect.mk 95 95 40 40) 100%Q 1 true ]
    (Game.set_bullets
       (Pool.mk [Bullet.init; Bullet.mk (Rect.mk 100 100 6 14) BULLET_SPEED true])
       (Game.init draws0)).

(** An active bullet, an active enemy of speed 100 and a star of speed
    100, all well inside the playfield. *)
Definition flying_bullet : Bullet.t := Bullet.mk (Rect.mk 447 300 6 14) BULLET_SPEED true.
Definition slow_enemy : Enemy.t := Enemy.mk 40 (Rect.mk 430 100 40 40) 100%Q 1 true.
Definition near_star : Star.t := Star.mk 10%Q 0%Q 100%Q 1 255.

(** ** Predicates of the statements *)


(** Slot [j] of the bullet pool holds an active bullet. *)
Definition bullet_on (g : Game.t) (j : nat) : Prop :=
  exists b, Pool.pool (Game.bullets g) !! j = Some b /\ Bullet.active b = true.

(** [update dt keys] calls [shoot] on [g]: the game runs and the guard of
    the shot holds after the player's own update. *)
Definition fired (dt : Q) (keys : Keys) (g : Game.t) : bool :=
  negb (Game.paused g || Game.game_over g)
  && Game.fires keys (Game.set_player (Player.update dt keys (Game.player g)) g).

(** The shape [__init__] gives a game and every frame keeps: 40 bullet
    slots, 24 enemies of a size between 20 and 44, a player 40 wide. *)
Definition well_formed (g : Game.t) : Prop :=
  length (Pool.pool (Game.bullets g)) = MAX_BULLETS
  /\ length (Game.enemies g) = 24%nat
  /\ Forall (fun s => 20 <= s <= 44) (Enemy.size <$> Game.enemies g)
  /\ Rect.width (Player.rect (Game.player g)) = 40.

(** What holds of [lives] in every state of the program. *)
Definition lives_bounds (g : Game.t) : Prop :=
  (Game.game_over g = false <-> 1 <= Player.lives (Game.player g))
  /\ 1 - 24 <= Player.lives (Game.player g) <= 3.

(** The number of active items in a list of sprites. *)
Fixpoint count_active {A : Type} `{Sprite A} (l : list A) : nat :=
  match l with
  | [] => O
  | a :: rest => ((if is_active a then 1 else 0) + count_active rest)%nat
  end.

(** The enemy [e] meets the test of the enemy-player loop. *)
Definition hits_player (pr : Rect.t) (e : Enemy.t) : bool :=
  Enemy.active e && Rect.colliderect (Enemy.rect e) pr.

(** What the enemy-player loop does to one enemy. *)
Definition after_player (pr : Rect.t) (e : Enemy.t) : Enemy.t :=
  if hits_player pr e then Enemy.set_active false e else e.

(** The ranges of the attributes of a star. *)
Definition star_ok (s : Star.t) : Prop :=
  (0 <= Star.x s <= inject_Z WIDTH)%Q
  /\ (-50 <= Star.y s <= inject_Z HEIGHT)%Q
  /\ (10 <= Star.speed s <= 120)%Q
  /\ 1 <= Star.size s <= 3
  /\ 80 <= Star.alpha s <= 255.

(** The flag [fullscreen] does not claim more than the display does. *)
Definition display_agrees (m : Main.t) : Prop :=
  (Game.fullscreen (Main.g m) = true -> display_mode (Main.screen m) = Some FULLSCREEN)
  /\ (display_mode (Main.screen m) = Some NOFLAGS -> Game.fullscreen (Main.g m) = false)
  /\ display_mode (Main.screen m) <> None.

(** The player's rectangle is the 40x40 square on the row [y = 520],
    inside the window. *)
Definition player_on_screen (g : Game.t) : Prop :=
  let r := Player.rect (Game.player g) in
  0 <= Rect.x r <= WIDTH - 40 /\ Rect.y r = HEIGHT - 80 /\ Rect.w r = 40 /\ Rect.h r = 40.

(** ** Arithmetic of the built-ins *)

Lemma clamp_range x a b : a <= b -> a <= clamp x a b <= b.
Proof. unfold clamp. lia. Qed.

Lemma py_max0_nonneg v : (0 <= py_max0 v)%Q.
Proof.
  unfold py_max0, Qlt_bool.
  destruct (Qle_bool v 0) eqn:E; simpl; [apply Qle_refl|].
  destruct (Qle_bool 0 v) eqn:E1; [now apply Qle_bool_iff|].
  exfalso. destruct (Qlt_le_dec v 0) as [Hlt|Hle].
  - apply Qlt_le_weak, Qle_bool_iff in Hlt. congruence.
  - apply Qle_bool_iff in Hle. congruence.
Qed.

Lemma py_max0_pos v : (0 < v)%Q -> py_max0 v = v.
Proof.
  intros Hv. unfold py_max0, Qlt_bool.
  destruct (Qle_bool v 0) eqn:E; simpl; [|reflexivity].
  apply Qle_bool_iff in E. lra.
Qed.

Lemma Qle_bool_false a b : (b < a)%Q -> Qle_bool a b = false.
Proof.
  intros Hlt. destruct (Qle_bool a b) eqn:E; [|reflexivity].
  apply Qle_bool_iff in E. lra.
Qed.

(** ** Pause and game over *)

(** C8. While [paused] or [game_over] is set, [update] returns the game
    it was given, for every [dt], every key state and every random draw:
    the player's rectangle and timer, every bullet and enemy, the score and
    the spawn accumulator are the ones before the call. *)
Theorem update_frozen_while_paused_or_over dt keys d (g : Game.t) :
  Game.paused g || Game.game_over g = true ->
  Game.update dt keys d g = Some g.
Proof.
  intros Hfrozen. unfold Game.update. now rewrite Hfrozen.
Qed.

Lemma update_frozen_while_paused_or_over_witness :
  Game.update (1 # 2)%Q fire_keys (Enemy.mkSpawnDraw 3 4 0%Q)
              (Game.set_paused true (Game.init draws0))
  = Some (Game.set_paused true (Game.init draws0)).
Proof.
  apply (update_frozen_while_paused_or_over (1 # 2)%Q fire_keys
           (Enemy.mkSpawnDraw 3 4 0%Q) (Game.set_paused true (Game.init draws0))).
  reflexivity.
Defined.

(** ** Restart *)

Lemma replicate_Forall {A} (P : A -> Prop) n a : P a -> Forall P (replicate n a).
Proof. intros Ha. induction n; simpl; constructor; auto. Qed.

Lemma init_bullets_inactive d :
  Forall (fun b => Bullet.active b = false) (Pool.pool (Game.bullets (Game.init d))).
Proof. unfold Game.init, Pool.init. cbn [Game.bullets Pool.pool]. now apply replicate_Forall. Qed.

Lemma init_enemies_inactive d :
  Forall (fun e => Enemy.active e = false) (Game.enemies (Game.init d)).
Proof.
  unfold Game.init; cbn [Game.enemies].
  apply Forall_fmap, Forall_forall. intros i _. reflexivity.
Qed.

(** C9. The restart command (key R while [game_over] is set) replaces the
    game by a freshly initialised one, whatever the old one was: the player
    is the initial player with 3 lives, the 40 bullets and the 24 enemies
    are all inactive, score and spawn accumulator are 0, and [paused] and
    [game_over] are false. *)
Theorem restart_is_full_reset rd (m : Main.t) :
  Game.game_over (Main.g m) = true ->
  let g1 := Main.g (Main.handle rd m (KEYDOWN K_r)) in
  g1 = Game.init rd
  /\ Game.player g1 = Player.init
  /\ Player.lives (Game.player g1) = 3
  /\ Player.shoot_timer (Game.player g1) = 0%Q
  /\ length (Pool.pool (Game.bullets g1)) = MAX_BULLETS
  /\ Forall (fun b => Bullet.active b = false) (Pool.pool (Game.bullets g1))
  /\ length (Game.enemies g1) = 24%nat
  /\ Forall (fun e => Enemy.active e = false) (Game.enemies g1)
  /\ Game.score g1 = 0
  /\ Game.enemy_timer g1 = 0%Q
  /\ Game.paused g1 = false
  /\ Game.game_over g1 = false.
Proof.
  intros Hover. cbn [Main.handle]. rewrite Hover. cbn [Main.g]. unfold Game.restart.
  repeat split; try reflexivity.
  - apply init_bullets_inactive.
  - apply init_enemies_inactive.
Qed.

Lemma restart_is_full_reset_witness :
  Game.game_over (Main.g after_four_hits) = true
  /\ Main.g (Main.handle draws0 after_four_hits (KEYDOWN K_r)) = Game.init draws0.
Proof.
  assert (Hover : Game.game_over (Main.g after_four_hits) = true) by (vm_compute; reflexivity).
  split; [exact Hover|].
  exact (proj1 (restart_is_full_reset draws0 after_four_hits Hover)).
Defined.

(** C10. [restart] also clears the [fullscreen] flag (and [paused]) and
    calls [set_mode] not at all: after a restart in full screen the flag
    reads [False] while the display is still in full-screen mode, and the
    next toggle command asks for full-screen mode again. *)
Theorem restart_forgets_fullscreen rd (m : Main.t) :
  Game.game_over (Main.g m) = true ->
  Game.fullscreen (Main.g m) = true ->
  display_mode (Main.screen m) = Some FULLSCREEN ->
  let m1 := Main.handle rd m (KEYDOWN K_r) in
  let m2 := Main.handle rd m1 (KEYDOWN K_f) in
  Game.fullscreen (Main.g m1) = false
  /\ Game.paused (Main.g m1) = false
  /\ Main.screen m1 = Main.screen m
  /\ display_mode (Main.screen m1) = Some FULLSCREEN
  /\ Game.fullscreen (Main.g m2) = true
  /\ Main.screen m2 = set_mode FULLSCREEN (Main.screen m)
  /\ display_mode (Main.screen m2) = Some FULLSCREEN.
Proof.
  intros Hover Hfull Hmode. cbn [Main.handle]. rewrite Hover.
  cbn [Main.g Main.screen Main.running]. unfold Game.restart.
  repeat split; try reflexivity. exact Hmode.
Qed.

Lemma restart_forgets_fullscreen_witness :
  Game.fullscreen (Main.g after_four_hits_fullscreen) = true
  /\ Game.fullscreen
       (Main.g (Main.handle draws0 after_four_hits_fullscreen (KEYDOWN K_r))) = false
  /\ Main.screen
       (Main.handle draws0
          (Main.handle draws0 after_four_hits_fullscreen (KEYDOWN K_r)) (KEYDOWN K_f))
     = [FULLSCREEN; FULLSCREEN; NOFLAGS].
Proof.
  assert (Hover : Game.game_over (Main.g after_four_hits_fullscreen) = true)
    by (vm_compute; reflexivity).
  assert (Hfull : Game.fullscreen (Main.g after_four_hits_fullscreen) = true)
    by (vm_compute; reflexivity).
  assert (Hmode : display_mode (Main.screen after_four_hits_fullscreen) = Some FULLSCREEN)
    by (vm_compute; reflexivity).
  pose proof (restart_forgets_fullscreen draws0 after_four_hits_fullscreen Hover Hfull Hmode)
    as (H1 & _ & _ & _ & _ & H6 & _).
  split; [exact Hfull|]. split; [exact H1|].
  rewrite H6. vm_compute. reflexivity.
Defined.

(** ** The player stays in the playfield *)

(** C4. After [Player.update] the player's [x] lies in
    [0, WIDTH - width], for every [dt], every key state and every [x]
    before the call; the rectangle only has to fit in the playfield (the
    player's is 40 wide). *)
Theorem player_x_stays_in_playfield dt keys (p : Player.t) :
  Rect.width (Player.rect p) <= WIDTH ->
  let p1 := Player.update dt keys p in
  0 <= Rect.x (Player.rect p1) <= WIDTH - Rect.width (Player.rect p)
  /\ Rect.width (Player.rect p1) = Rect.width (Player.rect p).
Proof.
  intros Hfit. cbn -[WIDTH clamp py_int Z.sub]. split; [|reflexivity].
  apply clamp_range. unfold Rect.width in *. lia.
Qed.

Lemma player_x_stays_in_playfield_witness :
  Rect.width (Player.rect Player.init) <= WIDTH
  /\ 0 <= Rect.x (Player.rect (Player.update (3 # 1)%Q
                                  (mkKeys false false true false false false) Player.init))
     <= 860.
Proof.
  assert (Hfit : Rect.width (Player.rect Player.init) <= WIDTH) by (vm_compute; discriminate).
  split; [exact Hfit|].
  exact (proj1 (player_x_stays_in_playfield (3 # 1)%Q
                  (mkKeys false false true false false false) Player.init Hfit)).
Defined.

(** ** The bullet pool *)

Section PoolScan.
Context {A : Type} `{Sprite A}.

Lemma first_inactive_Some (l : list A) k :
  Pool.first_inactive l = Some k ->
  (exists a, l !! k = Some a /\ is_active a = false)
  /\ (forall j a, (j < k)%nat -> l !! j = Some a -> is_active a = true).
Proof.
  revert k. induction l as [|item rest IH]; intros k Hk; simpl in Hk; [discriminate|].
  destruct (is_active item) eqn:Hact; simpl in Hk.
  - destruct (Pool.first_inactive rest) as [k0|] eqn:Hrest; simpl in Hk; [|discriminate].
    injection Hk as <-. destruct (IH k0 eq_refl) as [Hat Hbefore]. split.
    + exact Hat.
    + intros [|j] a Hj Ha; simpl in Ha.
      * now injection Ha as <-.
      * apply (Hbefore j); [lia|exact Ha].
  - injection Hk as <-. split.
    + exists item. now split.
    + intros j a Hj. lia.
Qed.

Lemma first_inactive_None (l : list A) :
  Pool.first_inactive l = None <-> Forall (fun a => is_active a = true) l.
Proof.
  induction l as [|item rest IH]; simpl.
  - split; [constructor|reflexivity].
  - destruct (is_active item) eqn:Hact; simpl.
    + destruct (Pool.first_inactive rest); simpl.
      * split; [discriminate|]. intros Hall. inversion Hall; subst.
        now apply IH in H3.
      * split; [|reflexivity]. intros _. constructor; [exact Hact|now apply IH].
    + split; [discriminate|]. intros Hall. inversion Hall; subst. congruence.
Qed.
End PoolScan.

(** C5. [get] on a bullet pool with at least one slot never fails.  When
    some slot is inactive it hands out the first inactive slot and leaves
    the pool as it is; when every slot is active it clears slot 0 and hands
    it out.  With a pool of two bullets, after two shots both slots are
    active, and the third shot takes slot 0 again. *)
Theorem bullet_pool_get_never_fails :
  (forall p : Pool.t Bullet.t,
      Pool.pool p <> [] ->
      exists i p1,
        Pool.get p = Some (i, p1)
        /\ (i < length (Pool.pool p))%nat
        /\ length (Pool.pool p1) = length (Pool.pool p)
        /\ ((exists j b, Pool.pool p !! j = Some b /\ Bullet.active b = false) ->
            p1 = p
            /\ (exists b, Pool.pool p !! i = Some b /\ Bullet.active b = false)
            /\ (forall j b, (j < i)%nat -> Pool.pool p !! j = Some b -> Bullet.active b = true))
        /\ (Forall (fun b => Bullet.active b = true) (Pool.pool p) ->
            i = O
            /\ exists b0, Pool.pool p !! O = Some b0
                 /\ Pool.pool p1 = <[O := Bullet.set_active false b0]> (Pool.pool p)))
  /\ (forall g0 : Game.t,
         let g := Game.set_bullets (Pool.init Bullet.init 2) g0 in
         let r := Player.rect (Game.player g0) in
         let shot := Bullet.activate (Rect.centerx r) (Rect.top r - 6) Bullet.init in
         exists g1 g2 g3,
           Game.shoot g = Some g1
           /\ Game.shoot g1 = Some g2
           /\ Pool.pool (Game.bullets g2) = [shot; shot]
           /\ Pool.get (Game.bullets g2)
              = Some (O, Pool.mk [Bullet.set_active false shot; shot])
           /\ Game.shoot g2 = Some g3
           /\ Pool.pool (Game.bullets g3) = [shot; shot]).
Proof.
  split.
  - intros p Hne. unfold Pool.get.
    destruct (Pool.first_inactive (Pool.pool p)) as [k|] eqn:Hscan.
    + destruct (first_inactive_Some _ _ Hscan) as [[a [Ha Hoff]] Hbefore].
      exists k, p. split; [reflexivity|]. split; [now apply lookup_lt_Some in Ha|].
      split; [reflexivity|]. split.
      * intros _. split; [reflexivity|]. split; [now exists a|exact Hbefore].
      * intros Hall. exfalso.
        rewrite Forall_lookup in Hall. specialize (Hall k a Ha). simpl in *. congruence.
    + destruct (Pool.pool p) as [|b0 rest] eqn:Hp; [congruence|]. simpl.
      exists O, (Pool.mk (Bullet.set_active false b0 :: rest)).
      split; [reflexivity|]. split; [simpl; lia|]. split; [reflexivity|]. split.
      * intros (j & b & Hj & Hoff). exfalso.
        apply first_inactive_None in Hscan. rewrite Forall_lookup in Hscan.
        specialize (Hscan j b Hj). simpl in *. congruence.
      * intros _. split; [reflexivity|]. exists b0. now split.
  - intros g0 g r shot. subst g r shot.
    eexists _, _, _. repeat split; reflexivity.
Qed.

Lemma bullet_pool_get_never_fails_witness :
  Pool.pool (Pool.init Bullet.init MAX_BULLETS) <> []
  /\ exists i p1, Pool.get (Pool.init Bullet.init MAX_BULLETS) = Some (i, p1)
                  /\ (i < length (Pool.pool (Pool.init Bullet.init MAX_BULLETS)))%nat.
Proof.
  assert (Hne : Pool.pool (Pool.init Bullet.init MAX_BULLETS) <> []) by (vm_compute; discriminate).
  split; [exact Hne|].
  destruct (proj1 bullet_pool_get_never_fails (Pool.init Bullet.init MAX_BULLETS) Hne)
    as (i & p1 & Hget & Hlt & _).
  exists i, p1. split; [exact Hget|exact Hlt].
Defined.

(** ** Spawning into a saturated enemy list *)

Lemma spawn_first_saturated d es :
  Forall (fun e => Enemy.active e = true) es -> Game.spawn_first d es = Some es.
Proof.
  induction 1 as [|e rest Hact _ IH]; simpl; [reflexivity|].
  rewrite Hact; simpl. now rewrite IH.
Qed.

Lemma set_enemies_same (g : Game.t) : Game.set_enemies (Game.enemies g) g = g.
Proof. now destruct g. Qed.

(** C6. When the accumulator reaches [ENEMY_SPAWN_TIME] while every enemy
    is active, the spawn request changes nothing and raises nothing: the
    game after [spawn_enemy] is the game before it, and the spawn step of
    [update] only resets the accumulator to 0. *)
Theorem enemy_spawn_dropped_when_saturated dt d (g : Game.t) :
  Forall (fun e => Enemy.active e = true) (Game.enemies g) ->
  (ENEMY_SPAWN_TIME <= Game.enemy_timer g + dt)%Q ->
  Game.spawn_enemy d g = Some g
  /\ Game.step_spawn dt d g = Some (Game.set_enemy_timer 0%Q g)
  /\ Game.enemies (Game.set_enemy_timer 0%Q g) = Game.enemies g.
Proof.
  intros Hall Hreach.
  assert (Hdrop : forall g0 : Game.t,
             Game.enemies g0 = Game.enemies g -> Game.spawn_enemy d g0 = Some g0).
  { intros g0 Hsame. unfold Game.spawn_enemy.
    rewrite Hsame, (spawn_first_saturated d _ Hall); simpl.
    now rewrite <- Hsame, set_enemies_same. }
  split; [now apply Hdrop|]. split; [|reflexivity].
  unfold Game.step_spawn. cbn [Game.enemy_timer Game.set_enemy_timer].
  apply Qle_bool_iff in Hreach. rewrite Hreach.
  now rewrite Hdrop.
Qed.

Lemma enemy_spawn_dropped_when_saturated_witness :
  let g := Game.set_enemies (Enemy.set_active true <$> Game.enemies (Game.init draws0))
             (Game.init draws0) in
  Game.step_spawn 1%Q (Enemy.mkSpawnDraw 5 6 0%Q) g = Some (Game.set_enemy_timer 0%Q g).
Proof.
  intros g.
  refine (proj1 (proj2 (enemy_spawn_dropped_when_saturated 1%Q (Enemy.mkSpawnDraw 5 6 0%Q) g _ _))).
  - subst g. cbn [Game.enemies Game.set_enemies].
    apply Forall_fmap, Forall_forall. intros e _. reflexivity.
  - vm_compute. discriminate.
Defined.

(** ** Bullet-enemy collisions *)


Section ActiveList.
Context {A : Type} `{Sprite A}.

Lemma active_from_elem (l : list A) i j :
  j ∈ Pool.active_from i l ->
  (i <= j)%nat /\ exists a, l !! (j - i)%nat = Some a /\ is_active a = true.
Proof.
  revert i. induction l as [|p rest IH]; intros i Hj; simpl in Hj.
  - now apply elem_of_nil in Hj.
  - assert (Hlater : j ∈ Pool.active_from (S i) rest ->
              (i <= j)%nat /\ exists a, (p :: rest) !! (j - i)%nat = Some a /\ is_active a = true).
    { intros Hin. destruct (IH _ Hin) as [Hle (a & Ha & Hact)].
      split; [lia|]. exists a. split; [|exact Hact].
      replace (j - i)%nat with (S (j - S i)) by lia. exact Ha. }
    destruct (is_active p) eqn:Hp; [|now apply Hlater].
    apply elem_of_cons in Hj as [->|Hin]; [|now apply Hlater].
    split; [lia|]. exists p. rewrite Nat.sub_diag. now split.
Qed.

End ActiveList.





(** ** Shooting and the cooldown *)

Lemma shoot_frame (g g1 : Game.t) :
  Game.shoot g = Some g1 ->
  Game.player g1 = Game.player g
  /\ Game.paused g1 = Game.paused g
  /\ Game.game_over g1 = Game.game_over g
  /\ exists i, forall j, j <> i ->
       Pool.pool (Game.bullets g1) !! j = Pool.pool (Game.bullets g) !! j.
Proof.
  unfold Game.shoot, Pool.get. intros Hshoot.
  destruct (Pool.first_inactive (Pool.pool (Game.bullets g))) as [k|]; simpl in Hshoot.
  - destruct (Pool.pool (Game.bullets g) !! k) as [b|]; simpl in Hshoot; [|discriminate].
    injection Hshoot as <-. repeat split. exists k. intros j Hne.
    cbn [Game.bullets Game.set_bullets Pool.pool]. now rewrite list_lookup_insert_ne.
  - destruct (Pool.pool (Game.bullets g)) as [|b0 rest] eqn:Hpool; simpl in Hshoot;
      [discriminate|].
    injection Hshoot as <-. repeat split. exists O. intros [|j] Hne; [congruence|].
    reflexivity.
Qed.

Lemma step_spawn_frame dt d (g g1 : Game.t) :
  Game.step_spawn dt d g = Some g1 ->
  Game.player g1 = Game.player g
  /\ Game.bullets g1 = Game.bullets g
  /\ Game.game_over g1 = Game.game_over g
  /\ Game.score g1 = Game.score g.
Proof.
  unfold Game.step_spawn, Game.spawn_enemy.
  cbn [Game.enemy_timer Game.set_enemy_timer Game.enemies].
  destruct (Qle_bool ENEMY_SPAWN_TIME (Game.enemy_timer g + dt)).
  - destruct (Game.spawn_first d (Game.enemies g)); simpl; [|discriminate].
    intros [= <-]. repeat split.
  - intros [= <-]. repeat split.
Qed.

Lemma collide_bullet_frame (g : Game.t) i :
  Game.player (Game.collide_bullet g i) = Game.player g
  /\ Game.game_over (Game.collide_bullet g i) = Game.game_over g
  /\ length (Game.enemies (Game.collide_bullet g i)) = length (Game.enemies g)
  /\ forall j, bullet_on (Game.collide_bullet g i) j -> bullet_on g j.
Proof.
  unfold Game.collide_bullet.
  destruct (Pool.pool (Game.bullets g) !! i) as [b|] eqn:Hb; [|now repeat split].
  destruct (Game.scan_enemies b (Game.enemies g)) as [es|] eqn:Hscan; [|now repeat split].
  split; [reflexivity|]. split; [reflexivity|]. split.
  - cbn [Game.enemies Game.set_score Game.set_bullets Game.set_enemies].
    clear Hb. revert es Hscan. induction (Game.enemies g) as [|e rest IH]; intros es Hscan;
      simpl in Hscan; [discriminate|].
    destruct (Enemy.active e && Bullet.active b
              && Rect.colliderect (Enemy.rect e) (Bullet.rect b)).
    + now injection Hscan as <-.
    + destruct (Game.scan_enemies b rest) as [es1|]; simpl in Hscan; [|discriminate].
      injection Hscan as <-. simpl. f_equal. now apply IH.
  - intros j (b1 & Hb1 & Hact). unfold bullet_on in *.
    cbn [Game.bullets Game.set_score Game.set_bullets Pool.pool] in Hb1.
    destruct (decide (i = j)) as [->|Hne].
    + rewrite list_lookup_insert_eq in Hb1 by now apply lookup_lt_Some in Hb.
      injection Hb1 as <-. discriminate.
    + rewrite list_lookup_insert_ne in Hb1 by exact Hne. now exists b1.
Qed.

Lemma collide_bullets_frame l (g : Game.t) :
  Game.player (foldl Game.collide_bullet g l) = Game.player g
  /\ Game.game_over (foldl Game.collide_bullet g l) = Game.game_over g
  /\ length (Game.enemies (foldl Game.collide_bullet g l)) = length (Game.enemies g)
  /\ forall j, bullet_on (foldl Game.collide_bullet g l) j -> bullet_on g j.
Proof.
  revert g. induction l as [|i l IH]; intros g; simpl; [now repeat split|].
  destruct (IH (Game.collide_bullet g i)) as (Hp & Ho & Hlen & Hon).
  destruct (collide_bullet_frame g i) as (Hp1 & Ho1 & Hlen1 & Hon1).
  repeat split; try congruence. intros j Hj. apply Hon1, Hon, Hj.
Qed.

Lemma hit_player_spec pr es lives over :
  let '(es1, l, o) := Game.hit_player pr es lives over in
  length es1 = length es
  /\ lives - Z.of_nat (length es) <= l <= lives
  /\ (o = true <-> over = true \/ (l <= 0 /\ l < lives)).
Proof.
  revert lives over. induction es as [|e rest IH]; intros lives over; simpl.
  - split; [reflexivity|]. split; [lia|]. split; [now left|]. intros [->|]; [reflexivity|lia].
  - destruct (Enemy.active e && Rect.colliderect (Enemy.rect e) pr).
    + specialize (IH (lives - 1) (if lives - 1 <=? 0 then true else over)).
      destruct (Game.hit_player pr rest (lives - 1) _) as [[es1 l] o].
      destruct IH as (Hlen & Hl & Ho). split; [simpl; lia|]. split; [lia|].
      rewrite Ho. destruct (Z.leb_spec (lives - 1) 0); intuition lia.
    + specialize (IH lives over).
      destruct (Game.hit_player pr rest lives over) as [[es1 l] o].
      destruct IH as (Hlen & Hl & Ho). split; [simpl; lia|]. split; [lia|]. exact Ho.
Qed.

Lemma step_enemy_player_frame (g : Game.t) :
  Game.bullets (Game.step_enemy_player g) = Game.bullets g
  /\ Player.shoot_timer (Game.player (Game.step_enemy_player g))
     = Player.shoot_timer (Game.player g)
  /\ Player.rect (Game.player (Game.step_enemy_player g)) = Player.rect (Game.player g).
Proof.
  unfold Game.step_enemy_player.
  destruct (Game.hit_player _ _ _ _) as [[es l] o]. repeat split.
Qed.

Lemma bullet_update_active dt (b : Bullet.t) :
  Bullet.active (Bullet.update dt b) = true -> Bullet.active b = true.
Proof.
  unfold Bullet.update. destruct (Bullet.active b) eqn:Hact; simpl; [reflexivity|].
  now rewrite Hact.
Qed.

(** The three steps a running [update] is made of. *)
Lemma update_running dt keys d (g g1 : Game.t) :
  Game.paused g || Game.game_over g = false ->
  Game.update dt keys d g = Some g1 ->
  exists g2 g3,
    Game.step_shoot keys (Game.set_player (Player.update dt keys (Game.player g)) g) = Some g2
    /\ Game.step_spawn dt d (Game.step_enemies dt (Game.step_bullets dt g2)) = Some g3
    /\ g1 = Game.step_enemy_player (Game.step_bullet_enemy g3).
Proof.
  intros Hrun. unfold Game.update. rewrite Hrun.
  destruct (Game.step_shoot keys _) as [g2|] eqn:Hshoot; simpl; [|discriminate].
  destruct (Game.step_spawn dt d _) as [g3|] eqn:Hspawn; simpl; [|discriminate].
  intros [= <-]. exists g2, g3. now rewrite Hspawn.
Qed.

Lemma step_shoot_frame keys (g g2 : Game.t) :
  Game.step_shoot keys g = Some g2 ->
  Game.paused g2 = Game.paused g
  /\ Game.game_over g2 = Game.game_over g
  /\ Player.rect (Game.player g2) = Player.rect (Game.player g)
  /\ Player.lives (Game.player g2) = Player.lives (Game.player g)
  /\ (Game.fires keys g = false -> g2 = g)
  /\ (Game.fires keys g = true ->
      Player.shoot_timer (Game.player g2) = FIRE_RATE
      /\ Game.shoot (Game.set_player (Player.set_shoot_timer FIRE_RATE (Game.player g)) g)
         = Some g2).
Proof.
  unfold Game.step_shoot. destruct (Game.fires keys g); intros Hstep.
  - destruct (shoot_frame _ _ Hstep) as (Hp & Hpa & Ho & _).
    rewrite Hp, Hpa, Ho. repeat split; [discriminate|exact Hstep].
  - injection Hstep as <-. repeat split; discriminate.
Qed.

Lemma update_activates dt keys d (g g1 : Game.t) :
  Game.update dt keys d g = Some g1 ->
  exists i, forall j, bullet_on g1 j -> bullet_on g j \/ (j = i /\ fired dt keys g = true).
Proof.
  intros Hupd. destruct (Game.paused g || Game.game_over g) eqn:Hrun.
  { unfold Game.update in Hupd. rewrite Hrun in Hupd. injection Hupd as <-.
    exists O. now left. }
  destruct (update_running _ _ _ _ _ Hrun Hupd) as (g2 & g3 & Hshoot & Hspawn & ->).
  destruct (step_spawn_frame _ _ _ _ Hspawn) as (_ & Hb3 & _).
  assert (Hback : forall j, bullet_on (Game.step_enemy_player (Game.step_bullet_enemy g3)) j ->
                            bullet_on g2 j).
  { intros j (b & Hb & Hact). unfold bullet_on in *.
    rewrite (proj1 (step_enemy_player_frame _)) in Hb.
    destruct (proj2 (proj2 (proj2
                (collide_bullets_frame (Pool.active_list (Game.bullets g3)) g3))) j)
      as (b3 & Hj3 & Hact3).
    { now exists b. }
    rewrite Hb3 in Hj3. cbn [Game.step_enemies Game.step_bullets Game.bullets
                              Game.set_enemies Game.set_bullets Pool.pool] in Hj3.
    rewrite list_lookup_fmap in Hj3.
    destruct (Pool.pool (Game.bullets g2) !! j) as [b2|]; simpl in Hj3; [|discriminate].
    injection Hj3 as <-. exists b2. split; [reflexivity|].
    now apply bullet_update_active in Hact3. }
  destruct (step_shoot_frame _ _ _ Hshoot) as (_ & _ & _ & _ & Hquiet & Hfire).
  destruct (Game.fires keys (Game.set_player (Player.update dt keys (Game.player g)) g))
    eqn:Hfires.
  - destruct (Hfire eq_refl) as [_ Hsh].
    destruct (shoot_frame _ _ Hsh) as (_ & _ & _ & i & Hother).
    exists i. intros j Hon. apply Hback in Hon as (b2 & Hb2 & Hact2).
    destruct (decide (j = i)) as [->|Hne].
    + right. split; [reflexivity|]. unfold fired. now rewrite Hrun, Hfires.
    + left. rewrite Hother in Hb2 by exact Hne. now exists b2.
  - rewrite (Hquiet eq_refl) in Hback. exists O. intros j Hon. left.
    now apply Hback in Hon.
Qed.

Lemma update_fired_timer dt keys d (g g1 : Game.t) :
  Game.update dt keys d g = Some g1 ->
  fired dt keys g = true ->
  Player.shoot_timer (Game.player g1) = FIRE_RATE.
Proof.
  intros Hupd Hfired. unfold fired in Hfired. apply andb_true_iff in Hfired as [Hrun Hfires].
  apply negb_true_iff in Hrun.
  destruct (update_running _ _ _ _ _ Hrun Hupd) as (g2 & g3 & Hshoot & Hspawn & ->).
  destruct (step_shoot_frame _ _ _ Hshoot) as (_ & _ & _ & _ & _ & Hfire).
  destruct (Hfire Hfires) as [Htimer _].
  destruct (step_spawn_frame _ _ _ _ Hspawn) as (Hp3 & _).
  rewrite (proj1 (proj2 (step_enemy_player_frame _))).
  unfold Game.step_bullet_enemy. rewrite (proj1 (collide_bullets_frame _ g3)).
  rewrite Hp3. exact Htimer.
Qed.

Lemma cooling_down_does_not_fire dt keys (g : Game.t) :
  Player.shoot_timer (Game.player g) = FIRE_RATE ->
  (dt < FIRE_RATE)%Q ->
  fired dt keys g = false.
Proof.
  intros Htimer Hdt. unfold fired, Game.fires.
  cbn [Game.player Game.set_player Player.update Player.shoot_timer].
  rewrite Htimer, py_max0_pos by lra.
  rewrite Qle_bool_false by lra.
  now rewrite andb_false_r, andb_false_r.
Qed.

(** C7. The shot of [update] is taken exactly when the fire input is held
    and the cooldown timer is [<= 0]; without it the game is left as it
    is, with it the timer is set to [FIRE_RATE] and [shoot] runs.  So of
    two consecutive [update]s, the second less than [FIRE_RATE] after the
    first (0.05 s against 0.16 s), at most one shoots, and at most one
    bullet slot that was not active before the first is active after the
    second. *)
Theorem cooldown_allows_one_shot :
  (forall keys (g g1 : Game.t),
      Game.step_shoot keys g = Some g1 ->
      (Game.fires keys g = true <->
       Game.fire_held keys = true /\ (Player.shoot_timer (Game.player g) <= 0)%Q)
      /\ (Game.fires keys g = false -> g1 = g)
      /\ (Game.fires keys g = true ->
          Player.shoot_timer (Game.player g1) = FIRE_RATE
          /\ Game.shoot (Game.set_player (Player.set_shoot_timer FIRE_RATE (Game.player g)) g)
             = Some g1))
  /\ (forall dt1 dt2 keys1 keys2 d1 d2 (g g1 g2 : Game.t),
         (dt2 < FIRE_RATE)%Q ->
         Game.update dt1 keys1 d1 g = Some g1 ->
         Game.update dt2 keys2 d2 g1 = Some g2 ->
         fired dt1 keys1 g && fired dt2 keys2 g1 = false
         /\ forall j k,
             ~ bullet_on g j -> bullet_on g2 j ->
             ~ bullet_on g k -> bullet_on g2 k -> j = k).
Proof.
  split.
  - intros keys g g1 Hstep.
    destruct (step_shoot_frame _ _ _ Hstep) as (_ & _ & _ & _ & Hquiet & Hfire).
    split; [|now split].
    unfold Game.fires. rewrite andb_true_iff, Qle_bool_iff. reflexivity.
  - intros dt1 dt2 keys1 keys2 d1 d2 g g1 g2 Hdt Hupd1 Hupd2.
    assert (Honce : fired dt1 keys1 g && fired dt2 keys2 g1 = false).
    { destruct (fired dt1 keys1 g) eqn:Hf1; [|reflexivity]. simpl.
      apply cooling_down_does_not_fire; [|exact Hdt].
      now apply (update_fired_timer _ _ _ _ _ Hupd1). }
    split; [exact Honce|].
    destruct (update_activates _ _ _ _ _ Hupd1) as (i1 & Hact1).
    destruct (update_activates _ _ _ _ _ Hupd2) as (i2 & Hact2).
    assert (Hnew : forall j, ~ bullet_on g j -> bullet_on g2 j ->
                     (j = i1 /\ fired dt1 keys1 g = true /\ fired dt2 keys2 g1 = false)
                     \/ (j = i2 /\ fired dt2 keys2 g1 = true /\ fired dt1 keys1 g = false)).
    { intros j Hoff Hon. destruct (Hact2 j Hon) as [Hon1|[-> Hf2]].
      - destruct (Hact1 j Hon1) as [Hon0|[-> Hf1]]; [contradiction|].
        left. rewrite Hf1 in Honce. simpl in Honce. now repeat split.
      - right. rewrite Hf2, andb_true_r in Honce. now repeat split. }
    intros j k Hj0 Hj2 Hk0 Hk2.
    destruct (Hnew j Hj0 Hj2) as [(-> & Hf1 & Hf2)|(-> & Hf2 & Hf1)];
      destruct (Hnew k Hk0 Hk2) as [(-> & Hg1 & Hg2)|(-> & Hg2 & Hg1)];
      congruence.
Qed.

Lemma cooldown_allows_one_shot_witness :
  ((5 # 100) < FIRE_RATE)%Q
  /\ exists g1 g2,
      Game.update (5 # 100)%Q fire_keys (Enemy.mkSpawnDraw 0 0 0%Q) (Game.init draws0) = Some g1
      /\ Game.update (5 # 100)%Q fire_keys (Enemy.mkSpawnDraw 0 0 0%Q) g1 = Some g2
      /\ fired (5 # 100)%Q fire_keys (Game.init draws0) = true
      /\ fired (5 # 100)%Q fire_keys g1 = false.
Proof.
  assert (Hdt : ((5 # 100) < FIRE_RATE)%Q) by reflexivity.
  split; [exact Hdt|].
  assert (Hrun : exists g1 g2,
             Game.update (5 # 100)%Q fire_keys (Enemy.mkSpawnDraw 0 0 0%Q) (Game.init draws0)
             = Some g1
             /\ Game.update (5 # 100)%Q fire_keys (Enemy.mkSpawnDraw 0 0 0%Q) g1 = Some g2
             /\ fired (5 # 100)%Q fire_keys (Game.init draws0) = true).
  { eexists _, _. split; [lazy; reflexivity|]. split; [lazy; reflexivity|]. reflexivity. }
  destruct Hrun as (g1 & g2 & Hupd1 & Hupd2 & Hfired).
  exists g1, g2. split; [exact Hupd1|]. split; [exact Hupd2|]. split; [exact Hfired|].
  pose proof (proj1 (proj2 cooldown_allows_one_shot _ _ _ _ _ _ _ _ _ Hdt Hupd1 Hupd2))
    as Honce.
  rewrite Hfired in Honce. exact Honce.
Defined.

(** ** No frame raises, and the shape of the game is kept *)

Lemma scan_enemies_sizes (b : Bullet.t) es es1 :
  Game.scan_enemies b es = Some es1 -> Enemy.size <$> es1 = Enemy.size <$> es.
Proof.
  revert es1. induction es as [|e rest IH]; intros es1 Hscan; simpl in Hscan; [discriminate|].
  destruct (Enemy.active e && Bullet.active b
            && Rect.colliderect (Enemy.rect e) (Bullet.rect b)).
  - now injection Hscan as <-.
  - destruct (Game.scan_enemies b rest) as [es2|]; simpl in Hscan; [|discriminate].
    injection Hscan as <-. simpl. f_equal. now apply IH.
Qed.

Lemma collide_bullet_shape (g : Game.t) i :
  Enemy.size <$> Game.enemies (Game.collide_bullet g i) = Enemy.size <$> Game.enemies g
  /\ length (Pool.pool (Game.bullets (Game.collide_bullet g i)))
     = length (Pool.pool (Game.bullets g)).
Proof.
  unfold Game.collide_bullet.
  destruct (Pool.pool (Game.bullets g) !! i) as [b|]; [|now split].
  destruct (Game.scan_enemies b (Game.enemies g)) as [es|] eqn:Hscan; [|now split].
  cbn [Game.enemies Game.bullets Game.set_score Game.set_bullets Game.set_enemies Pool.pool].
  split; [now apply scan_enemies_sizes in Hscan|apply length_insert].
Qed.

Lemma collide_bullets_shape l (g : Game.t) :
  Enemy.size <$> Game.enemies (foldl Game.collide_bullet g l) = Enemy.size <$> Game.enemies g
  /\ length (Pool.pool (Game.bullets (foldl Game.collide_bullet g l)))
     = length (Pool.pool (Game.bullets g)).
Proof.
  revert g. induction l as [|i l IH]; intros g; simpl; [now split|].
  destruct (IH (Game.collide_bullet g i)) as [Hs Hl].
  destruct (collide_bullet_shape g i) as [Hs1 Hl1]. split; congruence.
Qed.

Lemma hit_player_sizes pr es lives over :
  Enemy.size <$> (Game.hit_player pr es lives over).1.1 = Enemy.size <$> es.
Proof.
  revert lives over. induction es as [|e rest IH]; intros lives over; simpl; [reflexivity|].
  destruct (Enemy.active e && Rect.colliderect (Enemy.rect e) pr).
  - specialize (IH (lives - 1) (if lives - 1 <=? 0 then true else over)).
    destruct (Game.hit_player pr rest (lives - 1) _) as [[es1 l] o]. simpl in *. now f_equal.
  - specialize (IH lives over).
    destruct (Game.hit_player pr rest lives over) as [[es1 l] o]. simpl in *. now f_equal.
Qed.

Lemma spawn_first_sizes d es es1 :
  Game.spawn_first d es = Some es1 -> Enemy.size <$> es1 = Enemy.size <$> es.
Proof.
  revert es1. induction es as [|e rest IH]; intros es1 Hsp; simpl in Hsp.
  - now injection Hsp as <-.
  - destruct (Enemy.active e); simpl in Hsp.
    + destruct (Game.spawn_first d rest) as [es2|]; simpl in Hsp; [|discriminate].
      injection Hsp as <-. simpl. f_equal. now apply IH.
    + unfold Enemy.spawn in Hsp. destruct (WIDTH - Enemy.size e <? 0); simpl in Hsp;
        [discriminate|]. now injection Hsp as <-.
Qed.

Lemma spawn_first_total d es :
  Forall (fun s => 20 <= s <= 44) (Enemy.size <$> es) -> is_Some (Game.spawn_first d es).
Proof.
  induction es as [|e rest IH]; intros Hsz; simpl; [now eexists|].
  apply Forall_cons in Hsz as [He Hrest].
  destruct (Enemy.active e); simpl.
  - destruct (IH Hrest) as [es1 ->]. now eexists.
  - unfold Enemy.spawn. destruct (Z.ltb_spec (WIDTH - Enemy.size e) 0) as [Hneg|_].
    + unfold WIDTH in Hneg. lia.
    + now eexists.
Qed.

Lemma shoot_total (g : Game.t) :
  Pool.pool (Game.bullets g) <> [] ->
  exists g1, Game.shoot g = Some g1
    /\ Game.enemies g1 = Game.enemies g
    /\ length (Pool.pool (Game.bullets g1)) = length (Pool.pool (Game.bullets g)).
Proof.
  intros Hne. unfold Game.shoot, Pool.get.
  destruct (Pool.first_inactive (Pool.pool (Game.bullets g))) as [k|] eqn:Hscan; simpl.
  - destruct (first_inactive_Some _ _ Hscan) as [(b & -> & _) _]. simpl.
    eexists. split; [reflexivity|]. split; [reflexivity|].
    cbn [Game.bullets Game.set_bullets Pool.pool]. apply length_insert.
  - destruct (Pool.pool (Game.bullets g)) as [|b0 rest]; [congruence|]. simpl.
    eexists. split; [reflexivity|]. split; reflexivity.
Qed.

Lemma step_enemy_player_lives (g : Game.t) :
  let g1 := Game.step_enemy_player g in
  Player.lives (Game.player g) - Z.of_nat (length (Game.enemies g))
    <= Player.lives (Game.player g1) <= Player.lives (Game.player g)
  /\ (Game.game_over g1 = true <->
      Game.game_over g = true
      \/ (Player.lives (Game.player g1) <= 0
          /\ Player.lives (Game.player g1) < Player.lives (Game.player g)))
  /\ Enemy.size <$> Game.enemies g1 = Enemy.size <$> Game.enemies g.
Proof.
  unfold Game.step_enemy_player.
  pose proof (hit_player_spec (Player.rect (Game.player g)) (Game.enemies g)
                (Player.lives (Game.player g)) (Game.game_over g)) as Hspec.
  pose proof (hit_player_sizes (Player.rect (Game.player g)) (Game.enemies g)
                (Player.lives (Game.player g)) (Game.game_over g)) as Hsz.
  destruct (Game.hit_player _ _ _ _) as [[es l] o].
  destruct Hspec as (_ & Hl & Ho). simpl in *. exact (conj Hl (conj Ho Hsz)).
Qed.

Lemma init_well_formed d : well_formed (Game.init d).
Proof.
  unfold well_formed, Game.init, Pool.init.
  cbn [Game.bullets Game.enemies Game.player Pool.pool].
  split; [apply length_replicate|]. split; [reflexivity|]. split; [|reflexivity].
  rewrite <- list_fmap_compose. apply Forall_fmap, Forall_forall. intros i _.
  unfold compose, Enemy.init, randint. cbn [Enemy.size].
  pose proof (Z.mod_pos_bound (Z.of_N (Enemy.i_size (Game.enemy_draw d i))) (44 - 20 + 1)).
  lia.
Qed.

Lemma init_lives_bounds d : lives_bounds (Game.init d).
Proof. unfold lives_bounds. simpl. split; [split; [lia|reflexivity]|lia]. Qed.

(** [update] raises nothing on a well-formed game, and keeps the shape
    and the bounds on [lives]. *)
Lemma update_total dt keys d (g : Game.t) :
  well_formed g ->
  exists g1, Game.update dt keys d g = Some g1
    /\ well_formed g1
    /\ (lives_bounds g -> lives_bounds g1).
Proof.
  intros Hwf. pose proof Hwf as (Hpool & Hlen & Hsizes & Hwidth). unfold Game.update.
  destruct (Game.paused g || Game.game_over g) eqn:Hrun.
  { exists g. split; [reflexivity|]. split; [exact Hwf|trivial]. }
  apply orb_false_iff in Hrun as [_ Hover].
  set (gp := Game.set_player (Player.update dt keys (Game.player g)) g).
  assert (Hshoot : exists g2, Game.step_shoot keys gp = Some g2
             /\ Game.enemies g2 = Game.enemies g
             /\ length (Pool.pool (Game.bullets g2)) = MAX_BULLETS).
  { unfold Game.step_shoot. destruct (Game.fires keys gp).
    - destruct (shoot_total (Game.set_player
                   (Player.set_shoot_timer FIRE_RATE (Game.player gp)) gp))
        as (g2 & Hg2 & He2 & Hl2).
      + cbn [Game.bullets Game.set_player gp]. intros Hnil. rewrite Hnil in Hpool.
        discriminate.
      + exists g2. split; [exact Hg2|]. split; [exact He2|]. rewrite Hl2. exact Hpool.
    - exists gp. now repeat split. }
  destruct Hshoot as (g2 & Hg2 & He2 & Hl2). rewrite Hg2. simpl.
  destruct (step_shoot_frame _ _ _ Hg2) as (_ & Hover2 & Hrect2 & Hlives2 & _).
  set (gm := Game.step_enemies dt (Game.step_bullets dt g2)).
  assert (Hsz_m : Enemy.size <$> Game.enemies gm = Enemy.size <$> Game.enemies g).
  { subst gm. cbn [Game.enemies Game.step_enemies Game.set_enemies Game.step_bullets
                   Game.set_bullets]. rewrite He2, <- list_fmap_compose.
    apply list_fmap_ext. intros _ e _. unfold compose, Enemy.update.
    now destruct (Enemy.active e). }
  assert (Hspawn : exists g3, Game.step_spawn dt d gm = Some g3
             /\ Enemy.size <$> Game.enemies g3 = Enemy.size <$> Game.enemies g).
  { unfold Game.step_spawn, Game.spawn_enemy.
    cbn [Game.enemy_timer Game.set_enemy_timer Game.enemies].
    destruct (Qle_bool ENEMY_SPAWN_TIME (Game.enemy_timer gm + dt)).
    - destruct (spawn_first_total d (Game.enemies gm)) as [es Hes].
      { now rewrite Hsz_m. }
      rewrite Hes. simpl. eexists. split; [reflexivity|].
      cbn [Game.enemies Game.set_enemies]. apply spawn_first_sizes in Hes. congruence.
    - eexists. split; [reflexivity|]. exact Hsz_m. }
  destruct Hspawn as (g3 & Hg3 & Hsz3). rewrite Hg3. simpl.
  destruct (step_spawn_frame _ _ _ _ Hg3) as (Hp3 & Hb3 & Hover3 & _).
  set (gc := Game.step_bullet_enemy g3).
  destruct (collide_bullets_shape (Pool.active_list (Game.bullets g3)) g3) as [Hsz_c Hlen_c].
  destruct (collide_bullets_frame (Pool.active_list (Game.bullets g3)) g3)
    as (Hp_c & Hover_c & _ & _).
  fold (Game.step_bullet_enemy g3) in Hsz_c, Hlen_c, Hp_c, Hover_c. fold gc in Hsz_c, Hlen_c, Hp_c, Hover_c.
  destruct (step_enemy_player_lives gc) as (Hlives & Hover_e & Hsz_e).
  destruct (step_enemy_player_frame gc) as (Hb_e & _ & Hrect_e).
  exists (Game.step_enemy_player gc). split; [reflexivity|].
  assert (Hsz_all : Enemy.size <$> Game.enemies (Game.step_enemy_player gc)
                    = Enemy.size <$> Game.enemies g) by congruence.
  assert (Hlen_e : length (Game.enemies gc) = 24%nat).
  { rewrite <- Hlen, <- (length_fmap Enemy.size), Hsz_c, Hsz3. apply length_fmap. }
  split.
  - unfold well_formed. rewrite Hb_e, Hlen_c, Hb3, Hrect_e, Hp_c, Hp3, Hsz_all.
    split.
    { subst gm. cbn [Game.bullets Game.step_enemies Game.set_enemies Game.step_bullets
                     Game.set_bullets Pool.pool]. now rewrite length_fmap. }
    split.
    { rewrite <- Hlen, <- (length_fmap Enemy.size), Hsz_all. apply length_fmap. }
    split; [exact Hsizes|].
    subst gm. cbn [Game.player Game.step_enemies Game.set_enemies Game.step_bullets
                   Game.set_bullets]. rewrite Hrect2. exact Hwidth.
  - intros [Hiff Hrange]. unfold lives_bounds.
    assert (Hlives_c : Player.lives (Game.player gc) = Player.lives (Game.player g)).
    { rewrite Hp_c, Hp3. subst gm. cbn [Game.player Game.step_enemies Game.set_enemies
                                       Game.step_bullets Game.set_bullets].
      rewrite Hlives2. reflexivity. }
    assert (Hover_gc : Game.game_over gc = false).
    { rewrite Hover_c, Hover3. subst gm. cbn [Game.game_over Game.step_enemies
        Game.set_enemies Game.step_bullets Game.set_bullets]. rewrite Hover2. exact Hover. }
    rewrite Hlives_c, Hlen_e, Hover_gc in *.
    apply Hiff in Hover.
    split; [|lia]. split.
    + intros Hgo.
      destruct (Z.le_gt_cases 1 (Player.lives (Game.player (Game.step_enemy_player gc))))
        as [Hok|Hlow]; [exact Hok|].
      assert (Game.game_over (Game.step_enemy_player gc) = true) as Habs
          by (apply Hover_e; right; lia).
      congruence.
    + intros Hok. apply not_true_is_false. intros Hend.
      apply Hover_e in Hend as [Habs|[Hle _]]; [discriminate|lia].
Qed.

Lemma handle_keeps rd (m : Main.t) ev :
  well_formed (Main.g m) -> lives_bounds (Main.g m) ->
  well_formed (Main.g (Main.handle rd m ev)) /\ lives_bounds (Main.g (Main.handle rd m ev)).
Proof.
  intros Hwf Hlives. destruct ev as [|[| | | |]|]; cbn [Main.handle Main.g]; try (now split).
  - unfold Game.toggle_fullscreen.
    destruct (Game.fullscreen (Game.set_fullscreen _ _)); now split.
  - destruct (Game.game_over (Main.g m)); [|now split].
    split; [apply init_well_formed|apply init_lives_bounds].
Qed.

Lemma handle_all_keep rd evs (m : Main.t) :
  well_formed (Main.g m) -> lives_bounds (Main.g m) ->
  well_formed (Main.g (foldl (Main.handle rd) m evs))
  /\ lives_bounds (Main.g (foldl (Main.handle rd) m evs)).
Proof.
  revert m. induction evs as [|ev evs IH]; intros m Hwf Hlives; simpl; [now split|].
  destruct (handle_keeps rd m ev Hwf Hlives) as [Hwf1 Hlives1]. now apply IH.
Qed.

(** One iteration of the loop of [main] raises nothing. *)
Lemma frame_total i (m : Main.t) :
  well_formed (Main.g m) -> lives_bounds (Main.g m) ->
  exists m1, Main.frame i m = Some m1
    /\ well_formed (Main.g m1) /\ lives_bounds (Main.g m1).
Proof.
  intros Hwf Hlives. unfold Main.frame.
  destruct (handle_all_keep (Main.in_restart i) (Main.in_events i) m Hwf Hlives)
    as [Hwf1 Hlives1].
  destruct (update_total (Main.in_dt i) (Main.in_keys i) (Main.in_spawn i) _ Hwf1)
    as (g1 & -> & Hwf2 & Hlives2).
  simpl. eexists. split; [reflexivity|]. cbn [Main.g]. split; [exact Hwf2|now apply Hlives2].
Qed.

Lemma reachable_keeps (m : Main.t) :
  Main.reachable m -> well_formed (Main.g m) /\ lives_bounds (Main.g m).
Proof.
  induction 1 as [d|i m m1 _ [Hwf Hlives] _ Hframe].
  - split; [apply init_well_formed|apply init_lives_bounds].
  - destruct (frame_total i m Hwf Hlives) as (m2 & Hm2 & Hwf2 & Hlives2).
    rewrite Hframe in Hm2. injection Hm2 as <-. now split.
Qed.

Lemma run_reachable ins (m m1 : Main.t) :
  Main.reachable m -> Main.run ins m = Some m1 -> Main.reachable m1.
Proof.
  revert m. induction ins as [|i ins IH]; intros m Hm Hrun; simpl in Hrun.
  - now injection Hrun as <-.
  - destruct (Main.running m) eqn:Hgo; [|now injection Hrun as <-].
    destruct (Main.frame i m) as [m2|] eqn:Hframe; simpl in Hrun; [|discriminate].
    apply (IH m2); [|exact Hrun]. now apply (Main.reach_frame i m m2).
Qed.

(** ** The lives counter *)

(** C3, as stated, fails: four enemies that enter the player's rectangle
    in the same frame take four lives from three. *)
Lemma lives_below_zero_after_four_hits :
  exists m,
    Main.run (four_hits []) (Main.start draws0) = Some m
    /\ Main.reachable m
    /\ Player.lives (Game.player (Main.g m)) = -1.
Proof.
  assert (Hrun : exists m, Main.run (four_hits []) (Main.start draws0) = Some m
                           /\ Player.lives (Game.player (Main.g m)) = -1).
  { eexists. split; [vm_compute; reflexivity|reflexivity]. }
  destruct Hrun as (m & Hrun & Hlives). exists m. split; [exact Hrun|].
  split; [|exact Hlives]. apply (run_reachable _ _ _ (Main.reach_start draws0) Hrun).
Qed.

(** C3, amended.  In every state of the program [game_over] is false
    exactly when [lives >= 1], and [lives] is an integer between
    [1 - 24] and 3: it is at least 1 while the game runs, and the frame
    that ends the game can take one life per enemy (24 of them) from the
    last one. *)
Theorem lives_positive_until_game_over (m : Main.t) :
  Main.reachable m ->
  (Game.game_over (Main.g m) = false <-> 1 <= Player.lives (Game.player (Main.g m)))
  /\ 1 - 24 <= Player.lives (Game.player (Main.g m)) <= 3.
Proof.
  intros Hreach. exact (proj2 (reachable_keeps m Hreach)).
Qed.

Lemma lives_positive_until_game_over_witness :
  Main.reachable (Main.start draws0)
  /\ 1 <= Player.lives (Game.player (Main.g (Main.start draws0))).
Proof.
  assert (Hreach : Main.reachable (Main.start draws0)) by apply Main.reach_start.
  split; [exact Hreach|].
  apply (proj1 (lives_positive_until_game_over (Main.start draws0) Hreach)).
  reflexivity.
Defined.

(** In every state of the program the player's [x] after [Player.update]
    lies in [0, 860]. *)
Corollary reachable_player_x dt keys (m : Main.t) :
  Main.reachable m ->
  0 <= Rect.x (Player.rect (Player.update dt keys (Game.player (Main.g m)))) <= 860.
Proof.
  intros Hreach. destruct (reachable_keeps m Hreach) as [(_ & _ & _ & Hwidth) _].
  cbn -[clamp py_int Z.sub]. rewrite Hwidth. apply clamp_range. unfold WIDTH. lia.
Qed.

(** ** Movement and the length of a frame *)

(** C2 fails on the code.  [Bullet.update], [Enemy.update] and
    [Player.update] add [int(speed * dt)] to an integer coordinate, so the
    fraction of a pixel is lost in every frame: a bullet (900 px/s) stays
    where it is in a frame of 1 ms, two such frames leave it in place while
    one frame of 2 ms moves it by 1 pixel, and at the 8 ms tick of 120
    frames per second an enemy of speed 100 has not moved after 125 frames
    although one frame of one second moves it by 100.  [Star.update] keeps
    a float and adds [speed * dt] itself: two frames of 1 ms or one of 2 ms
    take a star equally far. *)
Theorem movement_loses_fraction_each_frame :
  py_int (inject_Z BULLET_SPEED * (1 # 1000)) = 0
  /\ Bullet.update (1 # 1000)%Q flying_bullet = flying_bullet
  /\ Rect.y (Bullet.rect (Bullet.update (1 # 1000)%Q
                            (Bullet.update (1 # 1000)%Q flying_bullet))) = 300
  /\ Rect.y (Bullet.rect (Bullet.update (2 # 1000)%Q flying_bullet)) = 299
  /\ Nat.iter 125 (Enemy.update (8 # 1000)%Q) slow_enemy = slow_enemy
  /\ Rect.y (Enemy.rect (Enemy.update 1%Q slow_enemy)) = 200
  /\ Rect.x (Player.rect (Player.update (2 # 1000)%Q
                            (mkKeys false false true false false false) Player.init))
     = Rect.x (Player.rect Player.init)
  /\ (Star.y (Star.update (1 # 1000)%Q star_draw0
                (Star.update (1 # 1000)%Q star_draw0 near_star))
      == Star.y (Star.update (2 # 1000)%Q star_draw0 near_star))%Q
  /\ (Star.y (Star.update (2 # 1000)%Q star_draw0 near_star)
      == Star.y near_star + Star.speed near_star * (2 # 1000))%Q.
Proof.
  repeat split; vm_compute; reflexivity.
Qed.

(** * Further properties of the code *)

(** ** Counting active sprites *)

Section Counting.
Context {A : Type} {SA : Sprite A}.

Lemma count_active_le (l : list A) : (count_active l <= length l)%nat.
Proof. induction l as [|a rest IH]; simpl; [lia|]. destruct (is_active a); lia. Qed.

Lemma count_active_from (l : list A) i : length (Pool.active_from i l) = count_active l.
Proof.
  revert i. induction l as [|a rest IH]; intros i; simpl; [reflexivity|].
  destruct (is_active a); simpl; now rewrite IH.
Qed.

Lemma count_active_switch_off (l : list A) i a a1 :
  l !! i = Some a -> is_active a = true -> is_active a1 = false ->
  (count_active (<[i := a1]> l) + 1 = count_active l)%nat.
Proof.
  revert i. induction l as [|a0 rest IH]; intros [|i] Hi Hon Hoff; simpl in *;
    try discriminate.
  - injection Hi as ->. rewrite Hon, Hoff. lia.
  - rewrite <- (IH i Hi Hon Hoff). lia.
Qed.

Lemma count_active_switch_on (l : list A) i a a1 :
  l !! i = Some a -> is_active a = false -> is_active a1 = true ->
  (count_active (<[i := a1]> l) = count_active l + 1)%nat.
Proof.
  revert i. induction l as [|a0 rest IH]; intros [|i] Hi Hoff Hon; simpl in *;
    try discriminate.
  - injection Hi as ->. rewrite Hon, Hoff. lia.
  - rewrite (IH i Hi Hoff Hon). lia.
Qed.

Lemma count_active_same (l : list A) i a a1 :
  l !! i = Some a -> is_active a1 = is_active a ->
  count_active (<[i := a1]> l) = count_active l.
Proof.
  revert i. induction l as [|a0 rest IH]; intros [|i] Hi Heq; simpl in *;
    try discriminate.
  - injection Hi as ->. now rewrite Heq.
  - now rewrite (IH i Hi Heq).
Qed.

Lemma count_active_all (l : list A) :
  Forall (fun a => is_active a = true) l -> count_active l = length l.
Proof. induction 1 as [|a rest Ha _ IH]; simpl; [reflexivity|]. rewrite Ha, IH. lia. Qed.

Lemma active_from_complete (l : list A) i j a :
  l !! j = Some a -> is_active a = true -> (i + j)%nat ∈ Pool.active_from i l.
Proof.
  revert i j. induction l as [|p rest IH]; intros i [|j] Hj Hact; simpl in *;
    try discriminate.
  - injection Hj as ->. rewrite Hact, Nat.add_0_r. apply elem_of_cons. now left.
  - replace (i + S j)%nat with (S i + j)%nat by lia.
    destruct (is_active p); [apply elem_of_cons; right|]; now apply IH.
Qed.

Lemma active_from_increasing (l : list A) i :
  StronglySorted lt (Pool.active_from i l).
Proof.
  revert i. induction l as [|p rest IH]; intros i; simpl; [constructor|].
  destruct (is_active p); [|apply IH].
  constructor; [apply IH|]. apply Forall_forall. intros j Hj.
  apply active_from_elem in Hj as [Hle _]. lia.
Qed.
End Counting.

(** X1. [active_list] is the list of exactly the slots that hold an
    active item, each once and in increasing order; so it has as many
    entries as there are active items, and never more than the pool has
    slots. *)
Theorem active_list_is_the_active_slots (p : Pool.t Bullet.t) :
  (forall j, j ∈ Pool.active_list p <->
             exists b, Pool.pool p !! j = Some b /\ Bullet.active b = true)
  /\ StronglySorted lt (Pool.active_list p)
  /\ length (Pool.active_list p) = count_active (Pool.pool p)
  /\ (length (Pool.active_list p) <= length (Pool.pool p))%nat.
Proof.
  unfold Pool.active_list. split; [|split; [|split]].
  - intros j. split.
    + intros Hj. apply active_from_elem in Hj as [_ (b & Hb & Hact)].
      rewrite Nat.sub_0_r in Hb. now exists b.
    + intros (b & Hb & Hact).
      apply (active_from_complete (SA := Bullet_Sprite) (Pool.pool p) O j b Hb Hact).
  - apply active_from_increasing.
  - apply count_active_from.
  - rewrite count_active_from. apply count_active_le.
Qed.

(** ** The score and the kills *)

Lemma scan_enemies_count (b : Bullet.t) es es1 :
  Game.scan_enemies b es = Some es1 ->
  Bullet.active b = true /\ (count_active es1 + 1 = count_active es)%nat.
Proof.
  revert es1. induction es as [|e rest IH]; intros es1 Hscan; simpl in Hscan; [discriminate|].
  destruct (Enemy.active e) eqn:He; simpl in Hscan.
  - destruct (Bullet.active b) eqn:Hb; simpl in Hscan.
    + destruct (Rect.colliderect (Enemy.rect e) (Bullet.rect b)).
      * injection Hscan as <-. split; [reflexivity|]. simpl. rewrite He. lia.
      * destruct (Game.scan_enemies b rest) as [es2|]; simpl in Hscan; [|discriminate].
        injection Hscan as <-. destruct (IH es2 eq_refl) as [_ Hc]. split; [reflexivity|].
        simpl. rewrite He. lia.
    + destruct (Game.scan_enemies b rest) as [es2|]; simpl in Hscan; [|discriminate].
      destruct (IH es2 eq_refl) as [Habs _]. discriminate.
  - destruct (Game.scan_enemies b rest) as [es2|]; simpl in Hscan; [|discriminate].
    injection Hscan as <-. destruct (IH es2 eq_refl) as [Hb Hc]. split; [exact Hb|].
    simpl. rewrite He. lia.
Qed.

Lemma collide_bullet_counts (g : Game.t) i :
  exists k : nat,
    Game.score (Game.collide_bullet g i) = Game.score g + 10 * Z.of_nat k
    /\ (count_active (Game.enemies (Game.collide_bullet g i)) + k
        = count_active (Game.enemies g))%nat
    /\ (count_active (Pool.pool (Game.bullets (Game.collide_bullet g i))) + k
        = count_active (Pool.pool (Game.bullets g)))%nat.
Proof.
  unfold Game.collide_bullet.
  destruct (Pool.pool (Game.bullets g) !! i) as [b|] eqn:Hb;
    [|exists O; repeat split; lia].
  destruct (Game.scan_enemies b (Game.enemies g)) as [es|] eqn:Hscan;
    [|exists O; repeat split; lia].
  destruct (scan_enemies_count _ _ _ Hscan) as [Hact Hcount].
  exists 1%nat. cbn [Game.score Game.enemies Game.bullets Game.set_score Game.set_bullets
                     Game.set_enemies Pool.pool].
  split; [lia|]. split; [exact Hcount|].
  now apply (count_active_switch_off (SA := Bullet_Sprite) _ i b).
Qed.

Lemma collide_bullets_counts l (g : Game.t) :
  exists k : nat,
    Game.score (foldl Game.collide_bullet g l) = Game.score g + 10 * Z.of_nat k
    /\ (count_active (Game.enemies (foldl Game.collide_bullet g l)) + k
        = count_active (Game.enemies g))%nat
    /\ (count_active (Pool.pool (Game.bullets (foldl Game.collide_bullet g l))) + k
        = count_active (Pool.pool (Game.bullets g)))%nat.
Proof.
  revert g. induction l as [|i l IH]; intros g; simpl.
  - exists O. repeat split; lia.
  - destruct (IH (Game.collide_bullet g i)) as (k1 & Hs1 & He1 & Hb1).
    destruct (collide_bullet_counts g i) as (k0 & Hs0 & He0 & Hb0).
    exists (k0 + k1)%nat. repeat split; lia.
Qed.

(** X2. The bullet-enemy step pays 10 points per kill and every kill
    uses up one bullet and one enemy: if [k] is the number of enemies the
    step deactivates, the score grows by [10 * k] and the number of active
    bullets falls by [k] as well. *)
Theorem score_pays_ten_per_kill (g : Game.t) :
  exists k : nat,
    Game.score (Game.step_bullet_enemy g) = Game.score g + 10 * Z.of_nat k
    /\ (count_active (Game.enemies (Game.step_bullet_enemy g)) + k
        = count_active (Game.enemies g))%nat
    /\ (count_active (Pool.pool (Game.bullets (Game.step_bullet_enemy g))) + k
        = count_active (Pool.pool (Game.bullets g)))%nat.
Proof.
  unfold Game.step_bullet_enemy. apply collide_bullets_counts.
Qed.

(** ** Enemies that reach the player *)

Lemma hit_player_closed pr es lives over :
  Game.hit_player pr es lives over
  = (after_player pr <$> es,
     lives - Z.of_nat (length (filter (fun e => hits_player pr e = true) es)),
     over || (existsb (hits_player pr) es
              && (lives - Z.of_nat (length (filter (fun e => hits_player pr e = true) es)) <=? 0))).
Proof.
  revert lives over. induction es as [|e rest IH]; intros lives over.
  - simpl. now rewrite Z.sub_0_r, orb_false_r.
  - cbn [Game.hit_player fmap list_fmap existsb]. unfold after_player at 1.
    fold (hits_player pr e). rewrite filter_cons.
    destruct (hits_player pr e) eqn:Hhit.
    + rewrite IH. destruct (decide (true = true)); [|congruence].
      cbn [length]. f_equal; [f_equal; lia|].
      replace (lives - 1 - Z.of_nat (length (filter (fun e0 => hits_player pr e0 = true) rest)))
        with (lives - Z.of_nat (S (length (filter (fun e0 => hits_player pr e0 = true) rest))))
        by lia.
      assert (Hnone : existsb (hits_player pr) rest = false ->
                      length (filter (fun e0 => hits_player pr e0 = true) rest) = O).
      { clear. induction rest as [|e0 rest IH]; [reflexivity|]. simpl.
        intros Hno. apply orb_false_iff in Hno as [Hno0 Hno].
        rewrite filter_cons. destruct (decide (hits_player pr e0 = true)); [congruence|].
        now apply IH. }
      set (n := length (filter (fun e0 => hits_player pr e0 = true) rest)) in *.
      destruct (Z.leb_spec (lives - 1) 0) as [Hlow|Hhigh];
        destruct (Z.leb_spec (lives - Z.of_nat (S n)) 0) as [Hl2|Hh2];
        destruct over, (existsb (hits_player pr) rest); simpl; try reflexivity;
        try lia; specialize (Hnone eq_refl); lia.
    + rewrite IH. destruct (decide (false = true)); [congruence|]. reflexivity.
Qed.

(** X3. The enemy-player step takes exactly one life per active enemy
    that overlaps the player, deactivates exactly these enemies and leaves
    the others as they are; [game_over] is set when there was such an enemy
    and the lives left are [<= 0], and is never cleared. *)
Theorem player_loses_one_life_per_enemy (g : Game.t) :
  let pr := Player.rect (Game.player g) in
  let hits := length (filter (fun e => hits_player pr e = true) (Game.enemies g)) in
  let g1 := Game.step_enemy_player g in
  Game.enemies g1 = after_player pr <$> Game.enemies g
  /\ Player.lives (Game.player g1) = Player.lives (Game.player g) - Z.of_nat hits
  /\ Game.game_over g1
     = Game.game_over g
       || (existsb (hits_player pr) (Game.enemies g) && (Player.lives (Game.player g1) <=? 0))
  /\ (count_active (Game.enemies g1) + hits = count_active (Game.enemies g))%nat
  /\ Game.score g1 = Game.score g
  /\ Game.bullets g1 = Game.bullets g.
Proof.
  intros pr hits g1. subst g1. unfold Game.step_enemy_player.
  fold pr. rewrite hit_player_closed. fold hits.
  cbn [Game.enemies Game.player Game.game_over Game.score Game.bullets Game.set_game_over
       Game.set_player Game.set_enemies Player.lives Player.set_lives].
  repeat split. subst hits. clear.
  induction (Game.enemies g) as [|e rest IH]; [reflexivity|].
  rewrite filter_cons. cbn [fmap list_fmap count_active]. unfold after_player at 1.
  change (is_active (if hits_player pr e then Enemy.set_active false e else e))
    with (Enemy.active (if hits_player pr e then Enemy.set_active false e else e)).
  change (is_active e) with (Enemy.active e).
  destruct (hits_player pr e) eqn:Hhit.
  - destruct (decide (true = true)); [|congruence]. cbn [length Enemy.active Enemy.set_active].
    unfold hits_player in Hhit. apply andb_true_iff in Hhit as [-> _].
    cbn [fmap] in IH. lia.
  - destruct (decide (false = true)); [congruence|]. cbn [fmap] in IH. lia.
Qed.

Lemma after_player_count pr es :
  (count_active (after_player pr <$> es) <= count_active es)%nat.
Proof.
  induction es as [|e rest IH]; [simpl; lia|].
  cbn [fmap list_fmap count_active]. cbn [fmap] in IH. unfold after_player at 1.
  change (is_active (if hits_player pr e then Enemy.set_active false e else e))
    with (Enemy.active (if hits_player pr e then Enemy.set_active false e else e)).
  change (is_active e) with (Enemy.active e).
  destruct (hits_player pr e); cbn [Enemy.active Enemy.set_active];
    destruct (Enemy.active e); lia.
Qed.

(** ** The random draws *)

Lemma randint_range a b r : a <= b -> a <= randint a b r <= b.
Proof.
  intros Hab. unfold randint.
  pose proof (Z.mod_pos_bound (Z.of_N r) (b - a + 1)). lia.
Qed.

Lemma random_unit_range r : (0 <= random_unit r)%Q /\ (random_unit r < 1)%Q.
Proof.
  unfold random_unit. pose proof (Qfloor_le r) as Hlo. pose proof (Qlt_floor r) as Hhi.
  rewrite inject_Z_plus in Hhi. change (inject_Z 1) with 1%Q in Hhi. split; lra.
Qed.

Lemma uniform_range a b r : (a <= b)%Q -> (a <= uniform a b r)%Q /\ (uniform a b r <= b)%Q.
Proof.
  intros Hab. unfold uniform. destruct (random_unit_range r) as [Hlo Hhi].
  assert (0 <= (b - a) * random_unit r)%Q by (apply Qmult_le_0_compat; lra).
  assert ((b - a) * random_unit r <= (b - a) * 1)%Q.
  { rewrite !(Qmult_comm (b - a)). apply Qmult_le_compat_r; lra. }
  split; lra.
Qed.

(** ** Spawning *)

Lemma spawn_placed d (e : Enemy.t) :
  Enemy.size e <= WIDTH ->
  exists e1,
    Enemy.spawn d e = Some e1
    /\ Enemy.active e1 = true /\ Enemy.health e1 = 1 /\ Enemy.size e1 = Enemy.size e
    /\ Rect.w (Enemy.rect e1) = Rect.w (Enemy.rect e)
    /\ Rect.h (Enemy.rect e1) = Rect.h (Enemy.rect e)
    /\ 0 <= Rect.x (Enemy.rect e1) <= WIDTH - Enemy.size e
    /\ - Enemy.size e - 200 <= Rect.y (Enemy.rect e1) <= - Enemy.size e
    /\ (ENEMY_SPEED_MIN <= Enemy.speed e1 <= ENEMY_SPEED_MAX)%Q.
Proof.
  intros Hfit. unfold Enemy.spawn.
  destruct (Z.ltb_spec (WIDTH - Enemy.size e) 0) as [Hneg|_]; [lia|].
  eexists. split; [reflexivity|].
  cbn [Enemy.active Enemy.health Enemy.size Enemy.rect Enemy.speed Rect.set_x Rect.set_y
       Rect.x Rect.y Rect.w Rect.h].
  pose proof (randint_range 0 (WIDTH - Enemy.size e) (Enemy.s_x d)).
  pose proof (randint_range 0 200 (Enemy.s_off d)).
  repeat split; try lia; apply uniform_range; unfold ENEMY_SPEED_MIN, ENEMY_SPEED_MAX; lra.
Qed.

(** X4. When some enemy is inactive and fits the window, [spawn_enemy]'s
    loop activates the first inactive enemy of the list and no other: the
    enemies before it (all active) and after it are untouched.  The
    spawned enemy keeps its size, has health 1, lies between the left and
    right edge ([0 <= x <= WIDTH - size]) and entirely above the top edge
    ([-size - 200 <= y <= -size]), with a speed in [80, 200]. *)
Theorem spawn_activates_first_inactive d es :
  Forall (fun e => Enemy.size e <= WIDTH) es ->
  Exists (fun e => Enemy.active e = false) es ->
  exists pre e post e1,
    es = pre ++ e :: post
    /\ Forall (fun e0 => Enemy.active e0 = true) pre
    /\ Enemy.active e = false
    /\ Game.spawn_first d es = Some (pre ++ e1 :: post)
    /\ Enemy.spawn d e = Some e1
    /\ Enemy.active e1 = true /\ Enemy.health e1 = 1 /\ Enemy.size e1 = Enemy.size e
    /\ 0 <= Rect.x (Enemy.rect e1) <= WIDTH - Enemy.size e
    /\ - Enemy.size e - 200 <= Rect.y (Enemy.rect e1) <= - Enemy.size e
    /\ (ENEMY_SPEED_MIN <= Enemy.speed e1 <= ENEMY_SPEED_MAX)%Q.
Proof.
  induction es as [|e rest IH]; intros Hfit Hex; [inversion Hex|].
  apply Forall_cons in Hfit as [He Hrest].
  destruct (Enemy.active e) eqn:Hact.
  - assert (Hex1 : Exists (fun e0 => Enemy.active e0 = false) rest).
    { inversion Hex; subst; [congruence|assumption]. }
    destruct (IH Hrest Hex1)
      as (pre & e0 & post & e1 & -> & Hpre & Hoff & Hsp & Hrem).
    exists (e :: pre), e0, post, e1. split; [reflexivity|]. split; [now constructor|].
    split; [exact Hoff|]. split; [|exact Hrem].
    simpl. rewrite Hact. simpl. now rewrite Hsp.
  - destruct (spawn_placed d e He) as (e1 & Hsp & Hon & Hh & Hsz & _ & _ & Hx & Hy & Hv).
    exists [], e, rest, e1. split; [reflexivity|]. split; [constructor|]. split; [exact Hact|].
    split; [simpl; rewrite Hact; simpl; now rewrite Hsp|].
    now repeat split.
Qed.

Lemma spawn_activates_first_inactive_witness :
  exists es1,
    Game.spawn_first (Enemy.mkSpawnDraw 430 60 0%Q) (Game.enemies hit_game) = Some es1
    /\ Enemy.active <$> es1 = [true; true; true].
Proof.
  destruct (spawn_activates_first_inactive (Enemy.mkSpawnDraw 430 60 0%Q)
              (Game.enemies hit_game))
    as (pre & e & post & e1 & Hes & Hpre & Hoff & Hsp & _).
  - repeat constructor; vm_compute; discriminate.
  - apply Exists_cons_hd. reflexivity.
  - exists (pre ++ e1 :: post). split; [exact Hsp|].
    assert (Heq : pre ++ e1 :: post
                  = default [] (Game.spawn_first (Enemy.mkSpawnDraw 430 60 0%Q)
                                  (Game.enemies hit_game))) by now rewrite Hsp.
    rewrite Heq. reflexivity.
Defined.

(** ** Shooting *)

Lemma set_center_centerx cx cy (r : Rect.t) :
  Rect.centerx (Rect.set_center cx cy r) = cx
  /\ Rect.y (Rect.set_center cx cy r) + Z.quot (Rect.h (Rect.set_center cx cy r)) 2 = cy.
Proof. unfold Rect.centerx, Rect.set_center. cbn [Rect.x Rect.y Rect.w Rect.h]. lia. Qed.

Lemma shoot_effect (g : Game.t) :
  Pool.pool (Game.bullets g) <> [] ->
  exists g1 i b0,
    Game.shoot g = Some g1
    /\ Pool.pool (Game.bullets g) !! i = Some b0
    /\ Pool.pool (Game.bullets g1)
       = <[i := Bullet.activate (Rect.centerx (Player.rect (Game.player g)))
                 (Rect.top (Player.rect (Game.player g)) - 6)
                 (Bullet.set_active false b0)]> (Pool.pool (Game.bullets g))
    /\ (Bullet.active b0 = false ->
        (count_active (Pool.pool (Game.bullets g1))
         = count_active (Pool.pool (Game.bullets g)) + 1)%nat)
    /\ (Bullet.active b0 = true ->
        i = O
        /\ count_active (Pool.pool (Game.bullets g)) = length (Pool.pool (Game.bullets g))
        /\ count_active (Pool.pool (Game.bullets g1))
           = count_active (Pool.pool (Game.bullets g)))
    /\ g1 = Game.set_bullets (Game.bullets g1) g.
Proof.
  intros Hne. unfold Game.shoot, Pool.get.
  destruct (Pool.first_inactive (Pool.pool (Game.bullets g))) as [k|] eqn:Hscan; simpl.
  - destruct (first_inactive_Some _ _ Hscan) as [(b & Hb & Hoff) _].
    change (is_active b) with (Bullet.active b) in Hoff.
    rewrite Hb. simpl. eexists _, k, b. split; [reflexivity|]. split; [exact Hb|].
    cbn [Game.bullets Game.set_bullets Pool.pool].
    assert (Hsame : Bullet.set_active false b = b).
    { destruct b as [r s a]. simpl in Hoff. now subst a. }
    rewrite Hsame. split; [reflexivity|]. split; [|split; [congruence|reflexivity]].
    intros _. now apply (count_active_switch_on (SA := Bullet_Sprite) _ k b).
  - apply first_inactive_None in Hscan.
    destruct (Pool.pool (Game.bullets g)) as [|b0 rest] eqn:Hpool; [congruence|]. simpl.
    eexists _, O, b0. split; [reflexivity|]. split; [reflexivity|].
    cbn [Game.bullets Game.set_bullets Pool.pool]. split; [reflexivity|].
    pose proof (count_active_all (SA := Bullet_Sprite) _ Hscan) as Hall.
    apply Forall_cons in Hscan as [Hb0 _]. change (is_active b0) with (Bullet.active b0) in Hb0.
    split; [congruence|]. split; [|reflexivity]. intros _. split; [reflexivity|].
    split; [exact Hall|]. simpl. change (is_active b0) with (Bullet.active b0).
    now rewrite Hb0.
Qed.

(** X5. On a pool with at least one slot [shoot] succeeds and changes
    one slot and nothing else in the game: that slot then holds an active
    bullet whose centre is at the player's horizontal centre, 6 pixels
    above the player's top edge.  If the slot was inactive there is one
    more active bullet than before; if it was active (then it is slot 0 and
    the whole pool was active) the number of active bullets stays at the
    capacity. *)
Theorem shoot_places_one_bullet (g : Game.t) :
  Pool.pool (Game.bullets g) <> [] ->
  exists g1 i b0 b,
    Game.shoot g = Some g1
    /\ g1 = Game.set_bullets (Game.bullets g1) g
    /\ Pool.pool (Game.bullets g) !! i = Some b0
    /\ Pool.pool (Game.bullets g1) = <[i := b]> (Pool.pool (Game.bullets g))
    /\ Bullet.active b = true
    /\ Bullet.speed b = Bullet.speed b0
    /\ Rect.centerx (Bullet.rect b) = Rect.centerx (Player.rect (Game.player g))
    /\ Rect.y (Bullet.rect b) + Z.quot (Rect.h (Bullet.rect b)) 2
       = Rect.top (Player.rect (Game.player g)) - 6
    /\ (Bullet.active b0 = false ->
        (count_active (Pool.pool (Game.bullets g1))
         = count_active (Pool.pool (Game.bullets g)) + 1)%nat)
    /\ (Bullet.active b0 = true ->
        i = O
        /\ count_active (Pool.pool (Game.bullets g1)) = length (Pool.pool (Game.bullets g))).
Proof.
  intros Hne.
  destruct (shoot_effect g Hne) as (g1 & i & b0 & Hshoot & Hb0 & Hpool & Hnew & Hfull & Hrest).
  exists g1, i, b0,
    (Bullet.activate (Rect.centerx (Player.rect (Game.player g)))
       (Rect.top (Player.rect (Game.player g)) - 6) (Bullet.set_active false b0)).
  split; [exact Hshoot|]. split; [exact Hrest|]. split; [exact Hb0|].
  split; [exact Hpool|]. split; [reflexivity|]. split; [reflexivity|].
  cbn [Bullet.activate Bullet.rect].
  split; [apply set_center_centerx|]. split; [apply set_center_centerx|].
  split; [exact Hnew|]. intros Hon. destruct (Hfull Hon) as (Hi & Hall & Hcount).
  split; [exact Hi|]. congruence.
Qed.

Lemma shoot_places_one_bullet_witness :
  exists g1,
    Game.shoot (Game.init draws0) = Some g1
    /\ count_active (Pool.pool (Game.bullets g1)) = 1%nat.
Proof.
  assert (Hne : Pool.pool (Game.bullets (Game.init draws0)) <> [])
    by (vm_compute; discriminate).
  destruct (shoot_places_one_bullet (Game.init draws0) Hne)
    as (g1 & i & b0 & b & Hshoot & _ & Hb0 & _ & _ & _ & _ & _ & Hnew & _).
  exists g1. split; [exact Hshoot|]. rewrite Hnew; [reflexivity|].
  assert (Hoff : Forall (fun b1 => Bullet.active b1 = false)
                   (Pool.pool (Game.bullets (Game.init draws0))))
    by apply init_bullets_inactive.
  rewrite Forall_lookup in Hoff. exact (Hoff i b0 Hb0).
Defined.

(** ** What one [update] changes *)

Lemma step_shoot_only keys (g g2 : Game.t) :
  Game.step_shoot keys g = Some g2 ->
  g2 = Game.set_bullets (Game.bullets g2) (Game.set_player (Game.player g2) g).
Proof.
  unfold Game.step_shoot. destruct (Game.fires keys g).
  - unfold Game.shoot. destruct (Pool.get _) as [[i bs]|]; simpl; [|discriminate].
    destruct (Pool.pool bs !! i); simpl; [|discriminate]. intros [= <-]. reflexivity.
  - intros [= <-]. now destruct g.
Qed.

Lemma step_spawn_only dt d (g g3 : Game.t) :
  Game.step_spawn dt d g = Some g3 ->
  g3 = Game.set_enemies (Game.enemies g3) (Game.set_enemy_timer (Game.enemy_timer g3) g)
  /\ ((Game.enemy_timer g3 = 0%Q /\ (ENEMY_SPAWN_TIME <= Game.enemy_timer g + dt)%Q
       /\ Game.spawn_first d (Game.enemies g) = Some (Game.enemies g3))
      \/ (Game.enemy_timer g3 = (Game.enemy_timer g + dt)%Q
          /\ (Game.enemy_timer g + dt < ENEMY_SPAWN_TIME)%Q
          /\ Game.enemies g3 = Game.enemies g)).
Proof.
  unfold Game.step_spawn, Game.spawn_enemy.
  cbn [Game.enemy_timer Game.set_enemy_timer Game.enemies].
  destruct (Qle_bool ENEMY_SPAWN_TIME (Game.enemy_timer g + dt)) eqn:Hreach.
  - destruct (Game.spawn_first d (Game.enemies g)) as [es|]; simpl; [|discriminate].
    intros [= <-]. split; [reflexivity|]. left. apply Qle_bool_iff in Hreach. now repeat split.
  - intros [= <-]. split; [now destruct g|]. right. repeat split.
    destruct (Qlt_le_dec (Game.enemy_timer g + dt) ENEMY_SPAWN_TIME) as [Hlt|Hle];
      [exact Hlt|].
    apply Qle_bool_iff in Hle. simpl in Hle. congruence.
Qed.

Lemma collide_bullets_only l (g : Game.t) :
  foldl Game.collide_bullet g l
  = Game.set_score (Game.score (foldl Game.collide_bullet g l))
      (Game.set_bullets (Game.bullets (foldl Game.collide_bullet g l))
         (Game.set_enemies (Game.enemies (foldl Game.collide_bullet g l)) g)).
Proof.
  revert g. induction l as [|i l IH]; intros g; simpl; [now destruct g|].
  rewrite IH at 1. unfold Game.collide_bullet.
  destruct (Pool.pool (Game.bullets g) !! i) as [b|]; [|reflexivity].
  destruct (Game.scan_enemies b (Game.enemies g)); reflexivity.
Qed.

(** The steps of a running [update] on a well-formed game. *)
Lemma update_steps dt keys d (g : Game.t) :
  well_formed g ->
  Game.paused g || Game.game_over g = false ->
  exists g2 g3,
    Game.step_shoot keys (Game.set_player (Player.update dt keys (Game.player g)) g) = Some g2
    /\ Game.step_spawn dt d (Game.step_enemies dt (Game.step_bullets dt g2)) = Some g3
    /\ Game.update dt keys d g = Some (Game.step_enemy_player (Game.step_bullet_enemy g3)).
Proof.
  intros Hwf Hrun. destruct (update_total dt keys d g Hwf) as (g1 & Hupd & _).
  destruct (update_running _ _ _ _ _ Hrun Hupd) as (g2 & g3 & H2 & H3 & ->).
  now exists g2, g3.
Qed.

Lemma update_keeps_rest dt keys d (g g1 : Game.t) :
  Game.update dt keys d g = Some g1 ->
  Game.running g1 = Game.running g
  /\ Game.fullscreen g1 = Game.fullscreen g
  /\ Game.paused g1 = Game.paused g
  /\ Game.stars g1 = Game.stars g.
Proof.
  intros Hupd. destruct (Game.paused g || Game.game_over g) eqn:Hrun.
  { unfold Game.update in Hupd. rewrite Hrun in Hupd. now injection Hupd as <-. }
  destruct (update_running _ _ _ _ _ Hrun Hupd) as (g2 & g3 & H2 & H3 & ->).
  apply step_shoot_only in H2. apply step_spawn_only in H3 as [H3 _].
  unfold Game.step_enemy_player, Game.step_bullet_enemy.
  destruct (Game.hit_player _ _ _ _) as [[es l] o].
  rewrite collide_bullets_only, H3, H2. repeat split.
Qed.

Lemma bullets_update_count dt (l : list Bullet.t) :
  (count_active (Bullet.update dt <$> l) <= count_active l)%nat.
Proof.
  induction l as [|b rest IH]; [simpl; lia|].
  rewrite fmap_cons. cbn [count_active].
  change (is_active (Bullet.update dt b)) with (Bullet.active (Bullet.update dt b)).
  change (is_active b) with (Bullet.active b).
  destruct (Bullet.active (Bullet.update dt b)) eqn:Hafter; [|lia].
  rewrite (bullet_update_active dt b Hafter). lia.
Qed.

Lemma enemies_update_count dt (l : list Enemy.t) :
  (count_active (Enemy.update dt <$> l) <= count_active l)%nat.
Proof.
  induction l as [|e rest IH]; [simpl; lia|].
  rewrite fmap_cons. cbn [count_active].
  change (is_active (Enemy.update dt e)) with (Enemy.active (Enemy.update dt e)).
  change (is_active e) with (Enemy.active e).
  unfold Enemy.update at 1. destruct (Enemy.active e) eqn:Hact; cbn [negb Enemy.active].
  - destruct (_ >? HEIGHT); cbv iota; lia.
  - rewrite Hact. lia.
Qed.

Lemma spawn_first_count d es es1 :
  Game.spawn_first d es = Some es1 -> (count_active es1 <= count_active es + 1)%nat.
Proof.
  revert es1. induction es as [|e rest IH]; intros es1 Hsp; simpl in Hsp.
  - injection Hsp as <-. simpl. lia.
  - destruct (Enemy.active e) eqn:Hact; simpl in Hsp.
    + destruct (Game.spawn_first d rest) as [es2|]; simpl in Hsp; [|discriminate].
      injection Hsp as <-. specialize (IH es2 eq_refl). cbn [count_active].
      change (is_active e) with (Enemy.active e). rewrite Hact. lia.
    + destruct (Enemy.spawn d e) as [e1|]; simpl in Hsp; [|discriminate].
      injection Hsp as <-. cbn [count_active].
      change (is_active e) with (Enemy.active e). rewrite Hact.
      destruct (is_active e1); lia.
Qed.

(** X6. One [update] raises the number of active bullets by at most one
    and the number of active enemies by at most one, whatever [dt] is: a
    long frame still fires one shot and spawns one enemy. *)
Theorem update_adds_at_most_one_of_each dt keys d (g : Game.t) :
  well_formed g ->
  exists g1,
    Game.update dt keys d g = Some g1
    /\ (count_active (Pool.pool (Game.bullets g1))
        <= count_active (Pool.pool (Game.bullets g)) + 1)%nat
    /\ (count_active (Game.enemies g1) <= count_active (Game.enemies g) + 1)%nat.
Proof.
  intros Hwf. destruct (Game.paused g || Game.game_over g) eqn:Hrun.
  { exists g. unfold Game.update. rewrite Hrun. repeat split; lia. }
  destruct (update_steps dt keys d g Hwf Hrun) as (g2 & g3 & H2 & H3 & Hupd).
  eexists. split; [exact Hupd|].
  set (gp := Game.set_player (Player.update dt keys (Game.player g)) g) in *.
  assert (Hb2 : (count_active (Pool.pool (Game.bullets g2))
                 <= count_active (Pool.pool (Game.bullets g)) + 1)%nat).
  { destruct (step_shoot_frame _ _ _ H2) as (_ & _ & _ & _ & Hquiet & Hfire).
    destruct (Game.fires keys gp).
    - destruct (Hfire eq_refl) as [_ Hshoot].
      destruct (shoot_effect (Game.set_player
                  (Player.set_shoot_timer FIRE_RATE (Game.player gp)) gp))
        as (g2' & i & b0 & Hsh & _ & _ & Hnew & Hfull & _).
      { cbn [Game.bullets Game.set_player gp]. destruct Hwf as [Hlen _].
        intros Hnil. rewrite Hnil in Hlen. discriminate. }
      rewrite Hshoot in Hsh. injection Hsh as <-.
      cbn [Game.bullets Game.set_player gp] in Hnew, Hfull.
      destruct (Bullet.active b0); [destruct (Hfull eq_refl) as (_ & _ & ->)|rewrite Hnew];
        auto; lia.
    - rewrite (Hquiet eq_refl). cbn [Game.bullets Game.set_player gp]. lia. }
  assert (He2 : Game.enemies g2 = Game.enemies g).
  { apply step_shoot_only in H2. rewrite H2. reflexivity. }
  destruct (step_spawn_frame _ _ _ _ H3) as (_ & Hb3 & _).
  destruct (step_spawn_only _ _ _ _ H3) as [_ Hsp].
  destruct (collide_bullets_counts (Pool.active_list (Game.bullets g3)) g3)
    as (k & _ & Hek & Hbk).
  fold (Game.step_bullet_enemy g3) in Hek, Hbk.
  split.
  - rewrite (proj1 (step_enemy_player_frame _)).
    rewrite Hb3 in Hbk.
    change (Pool.pool (Game.bullets (Game.step_enemies dt (Game.step_bullets dt g2))))
      with (Bullet.update dt <$> Pool.pool (Game.bullets g2)) in Hbk.
    pose proof (bullets_update_count dt (Pool.pool (Game.bullets g2))).
    clear -Hbk H Hb2.
    revert Hbk H Hb2.
    generalize (count_active (Pool.pool (Game.bullets (Game.step_bullet_enemy g3)))),
      (count_active (Bullet.update dt <$> Pool.pool (Game.bullets g2))),
      (count_active (Pool.pool (Game.bullets g2))),
      (count_active (Pool.pool (Game.bullets g))).
    intros; lia.
  - unfold Game.step_enemy_player. rewrite hit_player_closed.
    cbn [Game.enemies Game.set_game_over Game.set_player Game.set_enemies].
    pose proof (after_player_count (Player.rect (Game.player (Game.step_bullet_enemy g3)))
                  (Game.enemies (Game.step_bullet_enemy g3))) as Hap.
    pose proof (enemies_update_count dt (Game.enemies g2)) as Hmove.
    rewrite <- He2.
    change (Game.enemies (Game.step_enemies dt (Game.step_bullets dt g2)))
      with (Enemy.update dt <$> Game.enemies g2) in Hsp.
    destruct Hsp as [(_ & _ & Hspawn)|(_ & _ & Hsame)].
    + apply spawn_first_count in Hspawn. lia.
    + rewrite Hsame in Hek. lia.
Qed.

Lemma update_adds_at_most_one_of_each_witness :
  exists g1,
    Game.update 5%Q fire_keys (Enemy.mkSpawnDraw 0 0 0%Q) (Game.init draws0) = Some g1
    /\ (count_active (Game.enemies g1) <= 1)%nat.
Proof.
  destruct (update_adds_at_most_one_of_each 5%Q fire_keys (Enemy.mkSpawnDraw 0 0 0%Q)
              (Game.init draws0) (init_well_formed draws0))
    as (g1 & Hupd & _ & Hen).
  exists g1. split; [exact Hupd|]. exact Hen.
Defined.

(** ** The two timers *)

Lemma py_max0_le v c : (v <= c)%Q -> (0 <= c)%Q -> (py_max0 v <= c)%Q.
Proof.
  intros Hv Hc. unfold py_max0. destruct (Qlt_bool 0 v); [exact Hv|exact Hc].
Qed.

Lemma step_enemy_player_timer (g : Game.t) :
  Game.enemy_timer (Game.step_enemy_player g) = Game.enemy_timer g
  /\ Game.score (Game.step_enemy_player g) = Game.score g.
Proof.
  unfold Game.step_enemy_player. destruct (Game.hit_player _ _ _ _) as [[es l] o].
  now split.
Qed.

(** X7. After a running [update] the cooldown timer is never negative
    and the spawn accumulator is below [ENEMY_SPAWN_TIME].  For [dt >= 0]
    the cooldown timer also stays at most [FIRE_RATE] once it is, and the
    accumulator stays non-negative. *)
Theorem timers_stay_in_range dt keys d (g : Game.t) :
  well_formed g ->
  Game.paused g || Game.game_over g = false ->
  exists g1,
    Game.update dt keys d g = Some g1
    /\ (0 <= Player.shoot_timer (Game.player g1))%Q
    /\ (Game.enemy_timer g1 < ENEMY_SPAWN_TIME)%Q
    /\ ((0 <= dt)%Q -> (Player.shoot_timer (Game.player g) <= FIRE_RATE)%Q ->
        (Player.shoot_timer (Game.player g1) <= FIRE_RATE)%Q)
    /\ ((0 <= dt)%Q -> (0 <= Game.enemy_timer g)%Q -> (0 <= Game.enemy_timer g1)%Q).
Proof.
  intros Hwf Hrun.
  destruct (update_steps dt keys d g Hwf Hrun) as (g2 & g3 & H2 & H3 & Hupd).
  eexists. split; [exact Hupd|].
  set (gp := Game.set_player (Player.update dt keys (Game.player g)) g) in *.
  destruct (step_spawn_frame _ _ _ _ H3) as (Hp3 & _).
  destruct (step_spawn_only _ _ _ _ H3) as [_ Hsp].
  rewrite (proj1 (proj2 (step_enemy_player_frame _))).
  rewrite (proj1 (step_enemy_player_timer _)).
  unfold Game.step_bullet_enemy.
  rewrite (proj1 (collide_bullets_frame _ g3)).
  rewrite (collide_bullets_only _ g3). cbn [Game.enemy_timer Game.set_score Game.set_bullets
                                            Game.set_enemies].
  rewrite Hp3.
  change (Game.player (Game.step_enemies dt (Game.step_bullets dt g2)))
    with (Game.player g2).
  change (Game.enemy_timer (Game.step_enemies dt (Game.step_bullets dt g2)))
    with (Game.enemy_timer g2) in Hsp.
  assert (Ht2 : Game.enemy_timer g2 = Game.enemy_timer g).
  { apply step_shoot_only in H2. rewrite H2. reflexivity. }
  rewrite Ht2 in Hsp.
  assert (Hshot : Player.shoot_timer (Game.player g2) = FIRE_RATE
                  \/ Player.shoot_timer (Game.player g2)
                     = py_max0 (Player.shoot_timer (Game.player g) - dt)).
  { destruct (step_shoot_frame _ _ _ H2) as (_ & _ & _ & _ & Hquiet & Hfire).
    destruct (Game.fires keys gp).
    - left. now destruct (Hfire eq_refl).
    - right. rewrite (Hquiet eq_refl). reflexivity. }
  split; [|split; [|split]].
  - destruct Hshot as [->| ->]; [unfold FIRE_RATE; lra|apply py_max0_nonneg].
  - destruct Hsp as [(-> & _)|(-> & Hlt & _)]; [unfold ENEMY_SPAWN_TIME; lra|exact Hlt].
  - intros Hdt Hle. destruct Hshot as [->| ->]; [lra|].
    apply py_max0_le; [lra|unfold FIRE_RATE; lra].
  - intros Hdt Hpos. destruct Hsp as [(-> & _)|(-> & _)]; lra.
Qed.

Lemma timers_stay_in_range_witness :
  exists g1,
    Game.update (1 # 2)%Q fire_keys (Enemy.mkSpawnDraw 0 0 0%Q) (Game.init draws0) = Some g1
    /\ (0 <= Player.shoot_timer (Game.player g1))%Q
    /\ (Game.enemy_timer g1 < ENEMY_SPAWN_TIME)%Q.
Proof.
  destruct (timers_stay_in_range (1 # 2)%Q fire_keys (Enemy.mkSpawnDraw 0 0 0%Q)
              (Game.init draws0) (init_well_formed draws0) eq_refl)
    as (g1 & Hupd & Hshot & Hspawn & _).
  exists g1. split; [exact Hupd|]. split; [exact Hshot|exact Hspawn].
Defined.

(** ** Invariants of the loop *)

(** Induction over the states of the program, for a property of the game
    alone. *)
Lemma reachable_game_inv (P : Game.t -> Prop) :
  (forall d, P (Game.init d)) ->
  (forall g v, P g -> P (Game.set_paused v g)) ->
  (forall g v, P g -> P (Game.set_fullscreen v g)) ->
  (forall g dt keys d g1,
      well_formed g -> P g -> Game.update dt keys d g = Some g1 -> P g1) ->
  (forall g t0 sd, P g -> P (Game.draw t0 sd g)) ->
  forall m, Main.reachable m -> P (Main.g m).
Proof.
  intros Hinit Hpause Hfull Hupd Hdraw.
  assert (Hev : forall rd evs m, well_formed (Main.g m) -> lives_bounds (Main.g m) ->
              P (Main.g m) -> P (Main.g (foldl (Main.handle rd) m evs))).
  { intros rd evs. induction evs as [|ev evs IH]; intros m Hwf Hlb HP; simpl; [exact HP|].
    destruct (handle_keeps rd m ev Hwf Hlb) as [Hwf1 Hlb1]. apply IH; [exact Hwf1|exact Hlb1|].
    destruct ev as [|[| | | |]|]; cbn [Main.handle Main.g]; try exact HP.
    - now apply Hpause.
    - unfold Game.toggle_fullscreen.
      destruct (Game.fullscreen (Game.set_fullscreen _ _)); now apply Hfull.
    - destruct (Game.game_over (Main.g m)); [apply Hinit|exact HP]. }
  intros m Hreach. induction Hreach as [d|i m m1 Hreach IH _ Hframe]; [apply Hinit|].
  destruct (reachable_keeps m Hreach) as [Hwf Hlb].
  unfold Main.frame in Hframe.
  destruct (Game.update _ _ _ _) as [g1|] eqn:Hg1; simpl in Hframe; [|discriminate].
  injection Hframe as <-. cbn [Main.g]. apply Hdraw.
  destruct (handle_all_keep (Main.in_restart i) (Main.in_events i) m Hwf Hlb) as [Hwf1 _].
  apply (Hupd _ _ _ _ _ Hwf1 (Hev _ _ _ Hwf Hlb IH) Hg1).
Qed.

Lemma update_score dt keys d (g g1 : Game.t) :
  well_formed g ->
  Game.update dt keys d g = Some g1 ->
  exists k : nat, Game.score g1 = Game.score g + 10 * Z.of_nat k /\ (k <= MAX_BULLETS)%nat.
Proof.
  intros Hwf Hupd. destruct (Game.paused g || Game.game_over g) eqn:Hrun.
  { unfold Game.update in Hupd. rewrite Hrun in Hupd. injection Hupd as <-.
    exists O. split; [lia|unfold MAX_BULLETS; lia]. }
  destruct (update_total dt keys d g Hwf) as (g1' & Hupd' & (Hlen1 & _) & _).
  rewrite Hupd in Hupd'. injection Hupd' as <-.
  destruct (update_running _ _ _ _ _ Hrun Hupd) as (g2 & g3 & H2 & H3 & ->).
  destruct (step_spawn_frame _ _ _ _ H3) as (_ & Hb3 & _ & Hs3).
  destruct (collide_bullets_counts (Pool.active_list (Game.bullets g3)) g3)
    as (k & Hsk & _ & Hbk).
  fold (Game.step_bullet_enemy g3) in Hsk, Hbk.
  exists k. rewrite (proj2 (step_enemy_player_timer _)), Hsk, Hs3. split.
  - apply step_shoot_only in H2. rewrite H2. reflexivity.
  - pose proof (count_active_le (SA := Bullet_Sprite) (Pool.pool (Game.bullets g3))) as Hle.
    rewrite (proj1 (step_enemy_player_frame _)) in Hlen1.
    destruct (collide_bullets_shape (Pool.active_list (Game.bullets g3)) g3) as [_ Hl].
    fold (Game.step_bullet_enemy g3) in Hl. rewrite Hl in Hlen1.
    rewrite Hlen1 in Hle. revert Hbk Hle.
    generalize (count_active (Pool.pool (Game.bullets (Game.step_bullet_enemy g3)))),
      (count_active (Pool.pool (Game.bullets g3))). intros; lia.
Qed.

(** X8. [update] never lowers the score: on a well-formed game it adds
    [10 * k] for some [k] between 0 and the 40 bullets of the pool.  In
    every state of the program the score is a non-negative multiple of
    10. *)
Theorem score_is_a_multiple_of_ten (m : Main.t) :
  Main.reachable m ->
  (exists k : nat, Game.score (Main.g m) = 10 * Z.of_nat k)
  /\ forall dt keys d,
      exists g1 (k : nat),
        Game.update dt keys d (Main.g m) = Some g1
        /\ Game.score g1 = Game.score (Main.g m) + 10 * Z.of_nat k
        /\ (k <= MAX_BULLETS)%nat.
Proof.
  intros Hreach. split.
  - revert m Hreach.
    apply (reachable_game_inv (fun g => exists k : nat, Game.score g = 10 * Z.of_nat k)).
    + intros d. now exists O.
    + intros g v Hg. exact Hg.
    + intros g v Hg. exact Hg.
    + intros g dt keys d g1 Hwf [k Hk] Hupd.
      destruct (update_score _ _ _ _ _ Hwf Hupd) as (k1 & Hk1 & _).
      exists (k + k1)%nat. lia.
    + intros g t0 sd Hg. exact Hg.
  - intros dt keys d. destruct (reachable_keeps m Hreach) as [Hwf _].
    destruct (update_total dt keys d _ Hwf) as (g1 & Hupd & _).
    destruct (update_score _ _ _ _ _ Hwf Hupd) as (k & Hk & Hle).
    now exists g1, k.
Qed.

Lemma score_is_a_multiple_of_ten_witness :
  Main.reachable after_four_hits
  /\ exists k : nat, Game.score (Main.g after_four_hits) = 10 * Z.of_nat k.
Proof.
  assert (Hreach : Main.reachable after_four_hits).
  { apply (run_reachable (four_hits []) (Main.start draws0)); [apply Main.reach_start|].
    vm_compute. reflexivity. }
  split; [exact Hreach|].
  exact (proj1 (score_is_a_multiple_of_ten after_four_hits Hreach)).
Defined.

Lemma update_player_rect dt keys d (g g1 : Game.t) :
  Game.update dt keys d g = Some g1 ->
  Player.rect (Game.player g1) = Player.rect (Game.player g)
  \/ Player.rect (Game.player g1) = Player.rect (Player.update dt keys (Game.player g)).
Proof.
  intros Hupd. destruct (Game.paused g || Game.game_over g) eqn:Hrun.
  { unfold Game.update in Hupd. rewrite Hrun in Hupd. injection Hupd as <-. now left. }
  right. destruct (update_running _ _ _ _ _ Hrun Hupd) as (g2 & g3 & H2 & H3 & ->).
  destruct (step_spawn_frame _ _ _ _ H3) as (Hp3 & _).
  destruct (step_shoot_frame _ _ _ H2) as (_ & _ & Hr2 & _).
  rewrite (proj2 (proj2 (step_enemy_player_frame _))).
  unfold Game.step_bullet_enemy. rewrite (proj1 (collide_bullets_frame _ g3)), Hp3.
  exact Hr2.
Qed.

(** X9. In every state of the program the player's rectangle is the
    40x40 square on the row [y = 520] with [0 <= x <= 860]: the player
    never leaves the window and never moves vertically. *)
Theorem player_never_leaves_the_window (m : Main.t) :
  Main.reachable m -> player_on_screen (Main.g m).
Proof.
  revert m. apply (reachable_game_inv player_on_screen).
  - intros d. unfold player_on_screen.
    repeat split; vm_compute; first [reflexivity | discriminate].
  - intros g v Hg. exact Hg.
  - intros g v Hg. exact Hg.
  - intros g dt keys d g1 _ Hg Hupd. unfold player_on_screen in *.
    destruct (update_player_rect _ _ _ _ _ Hupd) as [-> | ->]; [exact Hg|].
    destruct Hg as (Hx & Hy & Hw & Hh).
    cbn [Player.update Player.rect Rect.set_x Rect.x Rect.y Rect.w Rect.h].
    unfold Rect.width. rewrite Hw. split; [|now repeat split].
    apply clamp_range. unfold WIDTH. lia.
  - intros g t0 sd Hg. exact Hg.
Qed.

Lemma player_never_leaves_the_window_witness :
  Main.reachable after_four_hits /\ player_on_screen (Main.g after_four_hits).
Proof.
  assert (Hreach : Main.reachable after_four_hits).
  { apply (run_reachable (four_hits []) (Main.start draws0)); [apply Main.reach_start|].
    vm_compute. reflexivity. }
  split; [exact Hreach|]. exact (player_never_leaves_the_window after_four_hits Hreach).
Defined.

Lemma handle_display rd (m : Main.t) ev :
  display_agrees m -> display_agrees (Main.handle rd m ev).
Proof.
  intros (Hflag & Hwin & Hsome). unfold display_agrees.
  destruct ev as [|[| | | |]|]; cbn [Main.handle Main.g Main.screen]; try (now repeat split).
  - unfold Game.toggle_fullscreen.
    cbn [Game.fullscreen Game.set_fullscreen].
    destruct (Game.fullscreen (Main.g m)); simpl;
      repeat split; first [discriminate | reflexivity | intros; congruence].
  - destruct (Game.game_over (Main.g m)); cbn [Main.g Main.screen]; [|now repeat split].
    unfold Game.restart. repeat split; [discriminate|exact Hsome].
Qed.

(** X10. In every state of the program a display mode has been set, and
    the flag [fullscreen] is [True] only when the display is in full-screen
    mode; when the display is windowed the flag is [False].  (The converse
    fails after a restart in full screen.) *)
Theorem fullscreen_flag_implies_fullscreen_display (m : Main.t) :
  Main.reachable m -> display_agrees m.
Proof.
  induction 1 as [d|i m m1 Hreach IH _ Hframe].
  - unfold display_agrees. cbn. repeat split; discriminate.
  - unfold Main.frame in Hframe.
    destruct (Game.update _ _ _ _) as [g1|] eqn:Hg1; simpl in Hframe; [|discriminate].
    injection Hframe as <-.
    assert (Hev : display_agrees (foldl (Main.handle (Main.in_restart i)) m (Main.in_events i))).
    { clear Hg1 Hreach. revert m IH.
      induction (Main.in_events i) as [|ev evs IHev]; intros m IH; simpl; [exact IH|].
      apply IHev. now apply handle_display. }
    destruct (update_keeps_rest _ _ _ _ _ Hg1) as (_ & Hfs & _).
    unfold display_agrees in *. cbn [Main.g Main.screen Game.draw Game.fullscreen
                                     Game.set_stars].
    rewrite Hfs. exact Hev.
Qed.

Lemma fullscreen_flag_implies_fullscreen_display_witness :
  Main.reachable after_four_hits_fullscreen
  /\ display_mode (Main.screen after_four_hits_fullscreen) = Some FULLSCREEN.
Proof.
  assert (Hreach : Main.reachable after_four_hits_fullscreen).
  { apply (run_reachable (four_hits [KEYDOWN K_f]) (Main.start draws0));
      [apply Main.reach_start|]. vm_compute. reflexivity. }
  split; [exact Hreach|].
  apply (proj1 (fullscreen_flag_implies_fullscreen_display _ Hreach)).
  vm_compute. reflexivity.
Defined.

(** ** The loop of [main] *)

Lemma handle_running_off rd (m : Main.t) ev :
  Main.running m = false -> Main.running (Main.handle rd m ev) = false.
Proof.
  intros Hoff. destruct ev as [|[| | | |]|]; cbn [Main.handle Main.running]; try easy.
  - unfold Game.toggle_fullscreen. now destruct (Game.fullscreen (Game.set_fullscreen _ _)).
  - now destruct (Game.game_over (Main.g m)).
Qed.

Lemma handle_all_running_off rd evs (m : Main.t) :
  Main.running m = false -> Main.running (foldl (Main.handle rd) m evs) = false.
Proof.
  revert m. induction evs as [|ev evs IH]; intros m Hoff; simpl; [exact Hoff|].
  now apply IH, handle_running_off.
Qed.

Lemma handle_all_quit rd evs (m : Main.t) :
  QUIT ∈ evs \/ KEYDOWN K_ESCAPE ∈ evs ->
  Main.running (foldl (Main.handle rd) m evs) = false.
Proof.
  revert m. induction evs as [|ev evs IH]; intros m Hin.
  - destruct Hin as [Hin|Hin]; now apply elem_of_nil in Hin.
  - simpl. destruct Hin as [Hin|Hin]; apply elem_of_cons in Hin as [<-|Hin];
      try (apply handle_all_running_off; reflexivity); apply IH; auto.
Qed.

(** X11. A frame whose events contain QUIT or the Escape key is the
    last one: it is still carried out to its end (the remaining events,
    [update] and [draw] run and raise nothing), it leaves [running] false,
    and the loop ignores every input after it. *)
Theorem quit_ends_the_loop_after_the_frame i rest (m : Main.t) :
  Main.reachable m ->
  Main.running m = true ->
  QUIT ∈ Main.in_events i \/ KEYDOWN K_ESCAPE ∈ Main.in_events i ->
  exists m1,
    Main.frame i m = Some m1
    /\ Main.running m1 = false
    /\ Main.run (i :: rest) m = Some m1.
Proof.
  intros Hreach Hgo Hquit. destruct (reachable_keeps m Hreach) as [Hwf Hlb].
  destruct (frame_total i m Hwf Hlb) as (m1 & Hframe & _).
  assert (Hoff : Main.running m1 = false).
  { unfold Main.frame in Hframe.
    destruct (Game.update _ _ _ _) as [g1|]; simpl in Hframe; [|discriminate].
    injection Hframe as <-. cbn [Main.running]. now apply handle_all_quit. }
  exists m1. split; [exact Hframe|]. split; [exact Hoff|].
  cbn [Main.run]. rewrite Hgo, Hframe. simpl. destruct rest; simpl; [reflexivity|].
  now rewrite Hoff.
Qed.

Lemma quit_ends_the_loop_after_the_frame_witness :
  exists m1,
    Main.run [frame_with [KEYDOWN K_p; QUIT; KEYDOWN K_p] 0 0 0%Q; quiet_frame 0 0 0%Q]
             (Main.start draws0) = Some m1
    /\ Main.running m1 = false.
Proof.
  destruct (quit_ends_the_loop_after_the_frame
              (frame_with [KEYDOWN K_p; QUIT; KEYDOWN K_p] 0 0 0%Q) [quiet_frame 0 0 0%Q]
              (Main.start draws0) (Main.reach_start draws0) eq_refl)
    as (m1 & _ & Hoff & Hrun).
  - left. apply elem_of_cons. right. apply elem_of_cons. now left.
  - exists m1. split; [exact Hrun|exact Hoff].
Defined.

(** X12. The events of a frame are handled before its [update], and
    [draw] runs in every frame: when the game is paused or over once the
    events are handled, the frame leaves the game as the events left it,
    except that every star is advanced by [dt].  So a frame that pauses
    the game already freezes the player, the bullets, the enemies, the
    score and the timers, while the stars keep moving. *)
Theorem paused_frame_moves_only_the_stars i (m : Main.t) :
  let m0 := foldl (Main.handle (Main.in_restart i)) m (Main.in_events i) in
  Game.paused (Main.g m0) || Game.game_over (Main.g m0) = true ->
  exists m1,
    Main.frame i m = Some m1
    /\ Main.g m1 = Game.set_stars (Game.stars (Main.g m1)) (Main.g m0)
    /\ length (Game.stars (Main.g m1)) = length (Game.stars (Main.g m0))
    /\ (forall k s, Game.stars (Main.g m0) !! k = Some s ->
          Game.stars (Main.g m1) !! k
          = Some (Star.update (Main.in_dt i) (Main.in_stars i k) s))
    /\ Main.screen m1 = Main.screen m0
    /\ Main.running m1 = Main.running m0.
Proof.
  intros m0 Hfrozen. unfold Main.frame. fold m0.
  unfold Game.update. rewrite Hfrozen. simpl. eexists. split; [reflexivity|].
  cbn [Main.g Main.screen Main.running Game.draw Game.stars Game.set_stars].
  split; [reflexivity|]. split; [apply length_imap|]. split; [|now split].
  intros k s Hk. rewrite list_lookup_imap, Hk. reflexivity.
Qed.

Lemma paused_frame_moves_only_the_stars_witness :
  exists m1,
    Main.frame (frame_with [KEYDOWN K_p] 0 0 0%Q) (Main.start draws0) = Some m1
    /\ Game.player (Main.g m1) = Player.init
    /\ Game.enemy_timer (Main.g m1) = 0%Q.
Proof.
  destruct (paused_frame_moves_only_the_stars (frame_with [KEYDOWN K_p] 0 0 0%Q)
              (Main.start draws0) eq_refl)
    as (m1 & Hframe & Hg & _).
  exists m1. split; [exact Hframe|]. rewrite Hg. split; reflexivity.
Defined.

(** ** Stars *)

Lemma uniform_range_down a b r : (b <= a)%Q -> (b <= uniform a b r)%Q /\ (uniform a b r <= a)%Q.
Proof.
  intros Hab. unfold uniform. destruct (random_unit_range r) as [Hlo Hhi].
  assert (0 <= (a - b) * random_unit r)%Q by (apply Qmult_le_0_compat; lra).
  assert ((a - b) * random_unit r <= (a - b) * 1)%Q.
  { rewrite !(Qmult_comm (a - b)). apply Qmult_le_compat_r; lra. }
  split; lra.
Qed.

Lemma reset_star_ok init d : star_ok (Star.reset init d).
Proof.
  unfold star_ok, Star.reset. cbn [Star.x Star.y Star.speed Star.size Star.alpha].
  assert (Hheight : (0 <= inject_Z HEIGHT)%Q) by (vm_compute; discriminate).
  split; [apply uniform_range; vm_compute; discriminate|].
  split.
  { destruct init.
    - destruct (uniform_range 0 (inject_Z HEIGHT) (Star.d_y d)) as [Hlo Hhi];
        [exact Hheight|]. split; lra.
    - destruct (uniform_range_down 0 (-50) (Star.d_y d)) as [Hlo Hhi]; [lra|].
      split; [exact Hlo|]. lra. }
  split; [apply uniform_range; lra|].
  split; apply randint_range; lia.
Qed.

(** X13. A star made by [reset] has [x] in [0, WIDTH], [y] in
    [-50, HEIGHT], a speed in [10, 120], a size from 1 to 3 and an alpha
    from 80 to 255; [update] with [dt >= 0] keeps a star in these ranges,
    and after [update] with any [dt] a star is never below the bottom edge
    ([y <= HEIGHT]). *)
Theorem star_stays_in_range dt d (s : Star.t) :
  (0 <= dt)%Q ->
  star_ok s ->
  star_ok (Star.update dt d s)
  /\ star_ok (Star.init d)
  /\ forall dt1, (Star.y (Star.update dt1 d s) <= inject_Z HEIGHT)%Q.
Proof.
  intros Hdt (Hx & Hy & Hv & Hsz & Ha).
  assert (Hbottom : forall dt1, (Star.y (Star.update dt1 d s) <= inject_Z HEIGHT)%Q).
  { intros dt1. unfold Star.update, Qlt_bool.
    destruct (Qle_bool (Star.y s + Star.speed s * dt1) (inject_Z HEIGHT)) eqn:Hin; simpl.
    - now apply Qle_bool_iff in Hin.
    - apply (reset_star_ok false d). }
  split; [|split; [apply reset_star_ok|exact Hbottom]].
  specialize (Hbottom dt). revert Hbottom. unfold Star.update, Qlt_bool.
  destruct (Qle_bool (Star.y s + Star.speed s * dt) (inject_Z HEIGHT)); simpl.
  - intros Hb. unfold star_ok. cbn [Star.x Star.y Star.speed Star.size Star.alpha].
    assert (0 <= Star.speed s * dt)%Q by (apply Qmult_le_0_compat; lra).
    repeat split; try tauto; try lia; lra.
  - intros _. apply reset_star_ok.
Qed.

Lemma star_stays_in_range_witness :
  star_ok near_star /\ star_ok (Star.update (1 # 100)%Q star_draw0 near_star).
Proof.
  assert (Hok : star_ok near_star).
  { unfold star_ok, near_star. cbn [Star.x Star.y Star.speed Star.size Star.alpha].
    repeat split; try lia; vm_compute; discriminate. }
  split; [exact Hok|].
  refine (proj1 (star_stays_in_range (1 # 100)%Q star_draw0 near_star _ Hok)). lra.
Defined.

(** ** Bullets and enemies leave the playfield *)

Lemma iter_fixed {A} (f : A -> A) x n : f x = x -> Nat.iter n f x = x.
Proof. intros Hfix. induction n; simpl; [reflexivity|]. now rewrite IHn. Qed.

Lemma bullet_off_fixed dt (b : Bullet.t) : Bullet.active b = false -> Bullet.update dt b = b.
Proof. intros Hoff. unfold Bullet.update. now rewrite Hoff. Qed.

Lemma enemy_off_fixed dt (e : Enemy.t) : Enemy.active e = false -> Enemy.update dt e = e.
Proof. intros Hoff. unfold Enemy.update. now rewrite Hoff. Qed.

Lemma bullet_leaves dt fuel (b : Bullet.t) :
  1 <= py_int (inject_Z (Bullet.speed b) * dt) ->
  (Z.to_nat (Rect.bottom (Bullet.rect b)) < fuel)%nat ->
  exists n, (n <= fuel)%nat /\ Bullet.active (Nat.iter n (Bullet.update dt) b) = false.
Proof.
  revert b. induction fuel as [|fuel IH]; intros b Hstep Hfuel; [lia|].
  destruct (Bullet.active b) eqn:Hact; [|exists O; split; [lia|exact Hact]].
  destruct (Bullet.active (Bullet.update dt b)) eqn:Hnext.
  - destruct (IH (Bullet.update dt b)) as (n & Hn & Hoff).
    + unfold Bullet.update. rewrite Hact. exact Hstep.
    + revert Hnext. unfold Bullet.update. rewrite Hact.
      cbn [negb Bullet.active Bullet.rect Rect.bottom Rect.set_y Rect.y Rect.h].
      unfold Rect.bottom in Hfuel.
      destruct (_ <? 0) eqn:Hout; [discriminate|]. intros _.
      apply Z.ltb_ge in Hout. unfold Rect.bottom, Rect.set_y in *.
      cbn [Rect.y Rect.h] in *. lia.
    + exists (S n). split; [lia|]. now rewrite Nat.iter_succ_r.
  - exists 1%nat. split; [lia|exact Hnext].
Qed.

(** X14. With a [dt] that moves a bullet by at least one pixel per frame
    ([int(speed * dt) >= 1]), every bullet is inactive after at most
    [bottom + 1] updates ([bottom] counted as 0 when negative), and from
    then on [update] leaves it exactly as it is: it never moves again and
    never becomes active by itself. *)
Theorem bullet_leaves_and_stays_off dt (b : Bullet.t) :
  1 <= py_int (inject_Z (Bullet.speed b) * dt) ->
  exists n,
    (n <= Z.to_nat (Rect.bottom (Bullet.rect b)) + 1)%nat
    /\ Bullet.active (Nat.iter n (Bullet.update dt) b) = false
    /\ forall m, (n <= m)%nat ->
         Nat.iter m (Bullet.update dt) b = Nat.iter n (Bullet.update dt) b.
Proof.
  intros Hstep.
  destruct (bullet_leaves dt (Z.to_nat (Rect.bottom (Bullet.rect b)) + 1) b Hstep)
    as (n & Hn & Hoff); [lia|].
  exists n. split; [exact Hn|]. split; [exact Hoff|].
  intros m Hm. replace m with ((m - n) + n)%nat by lia.
  rewrite Nat.iter_add. apply iter_fixed. now apply bullet_off_fixed.
Qed.

Lemma bullet_leaves_and_stays_off_witness :
  exists n, (n <= 315)%nat
    /\ Bullet.active (Nat.iter n (Bullet.update (8 # 1000)%Q) flying_bullet) = false.
Proof.
  destruct (bullet_leaves_and_stays_off (8 # 1000)%Q flying_bullet) as (n & Hn & Hoff & _).
  - vm_compute. discriminate.
  - exists n. split; [exact Hn|exact Hoff].
Defined.

Lemma enemy_leaves dt fuel (e : Enemy.t) :
  1 <= py_int (Enemy.speed e * dt) ->
  (Z.to_nat (HEIGHT - Rect.top (Enemy.rect e)) < fuel)%nat ->
  exists n, (n <= fuel)%nat /\ Enemy.active (Nat.iter n (Enemy.update dt) e) = false.
Proof.
  revert e. induction fuel as [|fuel IH]; intros e Hstep Hfuel; [lia|].
  destruct (Enemy.active e) eqn:Hact; [|exists O; split; [lia|exact Hact]].
  destruct (Enemy.active (Enemy.update dt e)) eqn:Hnext.
  - destruct (IH (Enemy.update dt e)) as (n & Hn & Hoff).
    + unfold Enemy.update. rewrite Hact. exact Hstep.
    + revert Hnext. unfold Enemy.update. rewrite Hact.
      cbn [negb Enemy.active Enemy.rect Rect.top Rect.set_y Rect.y].
      unfold Rect.top in Hfuel.
      destruct (_ >? HEIGHT) eqn:Hout; [discriminate|]. intros _.
      rewrite Z.gtb_ltb in Hout. apply Z.ltb_ge in Hout. unfold Rect.top, Rect.set_y in *.
      cbn [Rect.y] in *. lia.
    + exists (S n). split; [lia|]. now rewrite Nat.iter_succ_r.
  - exists 1%nat. split; [lia|exact Hnext].
Qed.

(** X15. With a [dt] that moves an enemy by at least one pixel per frame
    ([int(speed * dt) >= 1]), an enemy that nothing hits is inactive after
    at most [HEIGHT - top + 1] updates, and from then on [update] leaves it
    exactly as it is until it is spawned again. *)
Theorem enemy_leaves_and_stays_off dt (e : Enemy.t) :
  1 <= py_int (Enemy.speed e * dt) ->
  exists n,
    (n <= Z.to_nat (HEIGHT - Rect.top (Enemy.rect e)) + 1)%nat
    /\ Enemy.active (Nat.iter n (Enemy.update dt) e) = false
    /\ forall m, (n <= m)%nat ->
         Nat.iter m (Enemy.update dt) e = Nat.iter n (Enemy.update dt) e.
Proof.
  intros Hstep.
  destruct (enemy_leaves dt (Z.to_nat (HEIGHT - Rect.top (Enemy.rect e)) + 1) e Hstep)
    as (n & Hn & Hoff); [lia|].
  exists n. split; [exact Hn|]. split; [exact Hoff|].
  intros m Hm. replace m with ((m - n) + n)%nat by lia.
  rewrite Nat.iter_add. apply iter_fixed. now apply enemy_off_fixed.
Qed.

Lemma enemy_leaves_and_stays_off_witness :
  exists n, (n <= 501)%nat
    /\ Enemy.active (Nat.iter n (Enemy.update (1 # 10)%Q) slow_enemy) = false.
Proof.
  destruct (enemy_leaves_and_stays_off (1 # 10)%Q slow_enemy) as (n & Hn & Hoff & _).
  - vm_compute. discriminate.
  - exists n. split; [exact Hn|exact Hoff].
Defined.

(** ** The keys and the player *)

Lemma py_int_scale (z : Z) (dt : Q) :
  py_int (inject_Z z * dt) = Z.quot (z * Qnum dt) (Z.pos (Qden dt)).
Proof. unfold py_int. destruct dt as [n den]. reflexivity. Qed.

Lemma py_int_nonneg (z : Z) (dt : Q) :
  0 <= z -> (0 <= dt)%Q -> 0 <= py_int (inject_Z z * dt).
Proof.
  intros Hz Hdt. rewrite py_int_scale. apply Z.quot_pos; [|lia].
  unfold Qle in Hdt. simpl in Hdt. nia.
Qed.

Lemma py_int_opp (z : Z) (dt : Q) :
  py_int (inject_Z (- z) * dt) = - py_int (inject_Z z * dt).
Proof.
  rewrite !py_int_scale. rewrite Z.mul_opp_l. apply Z.quot_opp_l. lia.
Qed.

(** X16. For [dt >= 0] and a player inside the window: with left and
    right both held, or neither, [update] leaves [x] where it is; with
    only left held [x] falls by at most [int(speed * dt)] and never
    rises; with only right held it rises by at most [int(speed * dt)] and
    never falls.  The row, the size of the rectangle and the lives are
    never changed by [Player.update]. *)
Theorem player_moves_with_the_keys dt keys (p : Player.t) :
  (0 <= dt)%Q ->
  0 <= Player.speed p ->
  0 <= Rect.x (Player.rect p) <= WIDTH - Rect.width (Player.rect p) ->
  let step := py_int (inject_Z (Player.speed p) * dt) in
  let left := K_LEFT keys || K_a keys in
  let right := K_RIGHT keys || K_d keys in
  let x0 := Rect.x (Player.rect p) in
  let p1 := Player.update dt keys p in
  let x1 := Rect.x (Player.rect p1) in
  0 <= step
  /\ (left = right -> x1 = x0)
  /\ (left = true -> right = false -> x0 - step <= x1 <= x0)
  /\ (left = false -> right = true -> x0 <= x1 <= x0 + step)
  /\ Rect.y (Player.rect p1) = Rect.y (Player.rect p)
  /\ Rect.w (Player.rect p1) = Rect.w (Player.rect p)
  /\ Rect.h (Player.rect p1) = Rect.h (Player.rect p)
  /\ Player.lives p1 = Player.lives p.
Proof.
  intros Hdt Hspeed Hin step left right x0 p1 x1.
  assert (Hstep : 0 <= step) by now apply py_int_nonneg.
  split; [exact Hstep|].
  subst x1 p1. cbn [Player.update Player.rect Player.lives Rect.set_x Rect.x Rect.y Rect.w
                    Rect.h].
  fold x0. unfold Player.vx. fold left right.
  split; [|split; [|split; [|now repeat split]]].
  - intros <-.
    replace ((if left then -1 else 0) + (if left then 1 else 0)) with 0
      by (destruct left; reflexivity).
    assert (Hzero : py_int (inject_Z (0 * Player.speed p) * dt) = 0).
    { rewrite py_int_scale. replace (0 * Player.speed p * Qnum dt) with 0 by lia.
      apply Z.quot_0_l. lia. }
    rewrite Hzero. unfold clamp. lia.
  - intros -> ->. cbv iota. replace ((-1 + 0) * Player.speed p) with (- Player.speed p) by lia.
    rewrite py_int_opp. fold step. unfold clamp. lia.
  - intros -> ->. cbv iota. replace ((0 + 1) * Player.speed p) with (Player.speed p) by lia.
    fold step. unfold clamp. lia.
Qed.

Lemma player_moves_with_the_keys_witness :
  Rect.x (Player.rect (Player.update (1 # 10)%Q
                         (mkKeys true false false true false false) Player.init))
  = Rect.x (Player.rect Player.init).
Proof.
  refine (proj1 (proj2 (player_moves_with_the_keys (1 # 10)%Q
                          (mkKeys true false false true false false) Player.init _ _ _))
            eq_refl).
  - vm_compute. discriminate.
  - vm_compute. discriminate.
  - split; vm_compute; discriminate.
Defined.

(** ** The loop never raises *)

(** X17. From a state of the program every iteration of the loop of
    [main] runs to its end without an exception ([IndexError] of an empty
    pool, [ValueError] of an empty [randint] range), whatever the events,
    keys, [dt] and random draws are; the game keeps its 40 bullet slots and
    its 24 enemies of a size between 20 and 44.  So does every sequence of
    iterations. *)
Theorem loop_never_raises (m : Main.t) :
  Main.reachable m ->
  well_formed (Main.g m)
  /\ (forall i, exists m1, Main.frame i m = Some m1 /\ well_formed (Main.g m1))
  /\ (forall ins, exists m1, Main.run ins m = Some m1 /\ Main.reachable m1).
Proof.
  intros Hreach. destruct (reachable_keeps m Hreach) as [Hwf Hlb].
  split; [exact Hwf|]. split.
  - intros i. destruct (frame_total i m Hwf Hlb) as (m1 & Hframe & Hwf1 & _).
    now exists m1.
  - intros ins. revert m Hreach Hwf Hlb.
    induction ins as [|i ins IH]; intros m Hreach Hwf Hlb; cbn [Main.run].
    + now exists m.
    + destruct (Main.running m) eqn:Hgo; [|now exists m].
      destruct (frame_total i m Hwf Hlb) as (m1 & Hframe & Hwf1 & Hlb1).
      rewrite Hframe. simpl. apply IH; [|exact Hwf1|exact Hlb1].
      now apply (Main.reach_frame i m m1).
Qed.

Lemma loop_never_raises_witness :
  Main.reachable (Main.start draws0)
  /\ exists m1, Main.run (four_hits [KEYDOWN K_f]) (Main.start draws0) = Some m1.
Proof.
  assert (Hreach : Main.reachable (Main.start draws0)) by apply Main.reach_start.
  split; [exact Hreach|].
  destruct (proj2 (proj2 (loop_never_raises _ Hreach)) (four_hits [KEYDOWN K_f]))
    as (m1 & Hrun & _).
  now exists m1.
Defined.
